(** * api-tester: the attendance and GPS handlers and the SSE broker

    A shallow embedding of the two revisions of the server's [main.go]:
    the plain one (handlers and the two maps) and the one that adds the
    server-sent-events [Broker].  The handlers are written in a small state
    monad over the process globals and the request's [ResponseWriter]; the
    broker is a labelled transition system over its channels and the
    goroutines that talk to it. *)

From Stdlib Require Import ZArith String Ascii List DecimalString.
From Stdlib Require Import Uint63 PrimFloat FloatOps SpecFloat.
From stdpp Require Import base option list gmap strings fin_maps pretty.

Local Open Scope string_scope.

(** ** What the program takes from Go's standard library *)

(** Go's [float64] is IEEE 754 binary64, which is what the kernel's
    primitive floats are. *)
Abbreviation float64 := PrimFloat.float (only parsing).

(** Go's [[]byte], as the string of its bytes. *)
Abbreviation bytes := string (only parsing).

(** [type SSEMessage struct { Type string; Message string }] *)
Record SSEMessage := mkSSEMessage {
  Type_ : string;
  Message : string
}.

(** The library functions the handlers call.  They are not part of the
    repository, so the handlers are stated over any implementation of them:
    a result [(v, nil)] is [Some v], a result with a non-nil error is [None].
    The one fact used about them is that the two parsers reject the empty
    string. *)
Class GoLib := {
  ParseBool : string -> option bool;          (* strconv.ParseBool(s) *)
  ParseFloat : string -> option float64;      (* strconv.ParseFloat(s, 64) *)
  fmt_f6 : float64 -> string;                 (* the verb %.6f of package fmt *)
  json_Marshal : SSEMessage -> bytes;         (* json.Marshal(msg) *)
  ParseBool_empty : ParseBool "" = None;
  ParseFloat_empty : ParseFloat "" = None
}.

(** The verb [%v] on a [bool]. *)
Definition fmt_v (b : bool) : string := if b then "true" else "false".

Definition LF : string := String "010"%char EmptyString.

(** *** net/http *)

Definition StatusOK : Z := 200.
Definition StatusBadRequest : Z := 400.

(** [func (v Values) Get(key string) string] on [url.Values], which is
    [map[string][]string]: the first value of the key, the empty string
    when there is none. *)
Definition Get (v : gmap string (list string)) (key : string) : string :=
  match v !! key with
  | Some (x :: _) => x
  | _ => ""
  end.

(** The part of [*http.Request] the handlers read: [r.URL.Query()]. *)
Record Request := mkRequest {
  URL_Query : gmap string (list string)
}.

(** The part of [http.ResponseWriter] the handlers drive: the status line,
    once written, and the body so far. *)
Record ResponseWriter := mkResponseWriter {
  status : option Z;
  body : string
}.

Definition newResponseWriter : ResponseWriter :=
  {| status := None; body := "" |}.

Definition WriteHeader (code : Z) (w : ResponseWriter) : ResponseWriter :=
  match status w with
  | None => {| status := Some code; body := body w |}
  | Some _ => w
  end.

(** A write sends the header with [StatusOK] first if none was sent. *)
Definition Write (s : string) (w : ResponseWriter) : ResponseWriter :=
  let w' := WriteHeader StatusOK w in
  {| status := status w'; body := body w' +:+ s |}.

(** ** Data model *)

(** [type DeviceState struct] (declared, never used by the handlers). *)
Record DeviceState := mkDeviceState {
  DeviceState_ID : string;
  Value : bool
}.

(** [type GPSLocation struct { ID string; Lat, Lon float64 }] *)
Record GPSLocation := mkGPSLocation {
  ID : string;
  Lat : float64;
  Lon : float64
}.

(** The package-level variables, with what the process has handed to
    package [log] and sent on [broker.Notifier], oldest first. *)
Record World := mkWorld {
  gpsLocations : gmap string GPSLocation;
  devices : gmap string bool;
  logged : list string;
  notified : list bytes
}.

(** [make(map[string]GPSLocation)], [make(map[string]bool)], nothing logged
    or sent. *)
Definition initial : World :=
  {| gpsLocations := ∅; devices := ∅; logged := []; notified := [] |}.

(** ** Handler monad

    A handler runs on the globals and on its own [ResponseWriter]. *)
Record St := mkSt {
  world : World;
  w : ResponseWriter
}.

Definition Go (A : Type) : Type := St -> A * St.

#[global] Instance Go_ret : MRet Go := fun A a s => (a, s).
#[global] Instance Go_bind : MBind Go :=
  fun A B k m s => let (a, s') := m s in k a s'.

Definition modify_world (f : World -> World) : Go unit :=
  fun s => (tt, {| world := f (world s); w := w s |}).

Definition modify_w (f : ResponseWriter -> ResponseWriter) : Go unit :=
  fun s => (tt, {| world := world s; w := f (w s) |}).

(** [http.Error(w, msg, code)]: the status, then the message and a newline. *)
Definition http_Error (msg : string) (code : Z) : Go unit :=
  modify_w (fun w => Write (msg +:+ LF) (WriteHeader code w)).

(** [fmt.Fprintf(w, ...)] with the formatted text [s]. *)
Definition Fprintf_w (s : string) : Go unit := modify_w (Write s).

(** [log.Printf] and [log.Println] with the formatted text [s] (package
    [log] puts the time in front and ends the line). *)
Definition log_print (s : string) : Go unit :=
  modify_world (fun g =>
    {| gpsLocations := gpsLocations g; devices := devices g;
       logged := logged g ++ [s]; notified := notified g |}).

(** [gpsMutex.Lock(); gpsLocations[id] = v; gpsMutex.Unlock()]: a handler
    is one step here, so the critical section is the map write. *)
Definition set_gpsLocation (id : string) (v : GPSLocation) : Go unit :=
  modify_world (fun g =>
    {| gpsLocations := <[id := v]> (gpsLocations g); devices := devices g;
       logged := logged g; notified := notified g |}).

(** [mutex.Lock(); devices[id] = parsed; mutex.Unlock()] *)
Definition set_device (id : string) (parsed : bool) : Go unit :=
  modify_world (fun g =>
    {| gpsLocations := gpsLocations g; devices := <[id := parsed]> (devices g);
       logged := logged g; notified := notified g |}).

(** [broker.Notifier <- jsonMsg], recorded as sent; when the send can go
    through is the broker's matter, see [Publish] below. *)
Definition send_Notifier (jsonMsg : bytes) : Go unit :=
  modify_world (fun g =>
    {| gpsLocations := gpsLocations g; devices := devices g;
       logged := logged g; notified := notified g ++ [jsonMsg] |}).

(** The server calls a handler with a fresh [ResponseWriter]; what remains
    is the new globals and the response. *)
Definition serve (h : Request -> Go unit) (r : Request) (g : World)
  : World * ResponseWriter :=
  let s := snd (h r {| world := g; w := newResponseWriter |}) in
  (world s, w s).

(** ** The first revision: [main.go] *)
Module Plain.
Section handlers.
Context `{GoLib}.

Definition gpsHandler (r : Request) : Go unit :=
  let id := Get (URL_Query r) "id" in
  let latStr := Get (URL_Query r) "lat" in
  let lonStr := Get (URL_Query r) "lon" in
  if decide (id = "") then
    http_Error "Missing id param" StatusBadRequest
  else
    match ParseFloat latStr with
    | None => http_Error "Invalid lat param" StatusBadRequest
    | Some lat =>
      match ParseFloat lonStr with
      | None => http_Error "Invalid lon param" StatusBadRequest
      | Some lon =>
        set_gpsLocation id {| ID := id; Lat := lat; Lon := lon |} ;;
        log_print ("GPS Update: Device " +:+ id +:+ " at " +:+ fmt_f6 lat
                   +:+ ", " +:+ fmt_f6 lon +:+ LF) ;;
        Fprintf_w ("GPS updated for " +:+ id +:+ ": " +:+ fmt_f6 lat
                   +:+ ", " +:+ fmt_f6 lon +:+ LF)
      end
    end.

Definition updateHandler (r : Request) : Go unit :=
  let id := Get (URL_Query r) "id" in
  let val := Get (URL_Query r) "value" in
  if decide (id = "") then
    http_Error "Missing id param" StatusBadRequest
  else if decide (val = "") then
    http_Error "Missing value param" StatusBadRequest
  else
    match ParseBool val with
    | None => http_Error "Invalid boolean value" StatusBadRequest
    | Some parsed =>
      set_device id parsed ;;
      log_print ("Device " +:+ id +:+ " -> " +:+ fmt_v parsed +:+ LF) ;;
      Fprintf_w ("Device " +:+ id +:+ " set to " +:+ fmt_v parsed +:+ LF)
    end.

End handlers.
End Plain.

(** ** The second revision: handlers that also notify the broker *)
Module Sse.
Section handlers.
Context `{GoLib}.

(** [func broadcast(msgType, msgContent string)] *)
Definition broadcast (msgType msgContent : string) : Go unit :=
  let msg := {| Type_ := msgType; Message := msgContent |} in
  let jsonMsg := json_Marshal msg in
  send_Notifier jsonMsg.

Definition gpsHandler (r : Request) : Go unit :=
  let id := Get (URL_Query r) "id" in
  let latStr := Get (URL_Query r) "lat" in
  let lonStr := Get (URL_Query r) "lon" in
  if decide (id = "") then
    http_Error "Missing id param" StatusBadRequest
  else
    match ParseFloat latStr with
    | None => http_Error "Invalid lat param" StatusBadRequest
    | Some lat =>
      match ParseFloat lonStr with
      | None => http_Error "Invalid lon param" StatusBadRequest
      | Some lon =>
        set_gpsLocation id {| ID := id; Lat := lat; Lon := lon |} ;;
        let logMsg := "Location update received for " +:+ id +:+ " "
                      +:+ fmt_f6 lat +:+ ", " +:+ fmt_f6 lon in
        log_print logMsg ;;
        broadcast "gps" logMsg ;;
        Fprintf_w ("GPS updated for " +:+ id +:+ ": " +:+ fmt_f6 lat
                   +:+ ", " +:+ fmt_f6 lon +:+ LF)
      end
    end.

Definition updateHandler (r : Request) : Go unit :=
  let id := Get (URL_Query r) "id" in
  let val := Get (URL_Query r) "value" in
  if decide (id = "") then
    http_Error "Missing id param" StatusBadRequest
  else if decide (val = "") then
    http_Error "Missing value param" StatusBadRequest
  else
    match ParseBool val with
    | None => http_Error "Invalid boolean value" StatusBadRequest
    | Some parsed =>
      set_device id parsed ;;
      let logMsg :=
        if parsed then "Attendance registered for " +:+ id
        else "Attendance unregistered for " +:+ id in
      log_print logMsg ;;
      broadcast "update" logMsg ;;
      Fprintf_w ("Device " +:+ id +:+ " set to " +:+ fmt_v parsed +:+ LF)
    end.

End handlers.

(** *** The broker

    [Broker.listen] is the only goroutine that touches [clients]; handlers
    reach it through [Notifier], and every [ServeHTTP] call through
    [newClients] and [closingClients].  The three goroutine kinds are put
    together as one transition system: a label is one move of one
    goroutine. *)

(** [type Broker struct].  [Notifier] has capacity 1 and is given by the
    values it buffers; [newClients] and [closingClients] are unbuffered, a
    send on them is a rendezvous with [listen] and leaves nothing behind; a
    [chan []byte] made by [ServeHTTP] is named by a number. *)
Record Broker := mkBroker {
  Notifier : list bytes;
  clients : gmap nat bool
}.

Definition NotifierCap : nat := 1.

(** Where [listen] stands. *)
Inductive ListenPC :=
  | Select                                   (* running, on its way to the select *)
  | Parked                                   (* asleep in the select: no case was ready *)
  | Ranging (event : bytes) (todo : list nat) (* in the [for ... range broker.clients] *).

(** Where a [ServeHTTP] call stands. *)
Inductive Phase :=
  | AtNewClients                 (* at [broker.newClients <- messageChan] *)
  | Entering                     (* registered, on its way to the select *)
  | AtSelect                     (* waiting in its select on [notify] and [messageChan] *)
  | Flushing (msg : bytes)       (* received [msg]; in [Fprintf] and [Flush] *)
  | AtClosingClients             (* returned; at the deferred [broker.closingClients <- messageChan] *)
  | Returned.

(** A [ServeHTTP] call: its place and what it wrote to its [w] so far. *)
Record Conn := mkConn {
  phase : Phase;
  stream : list string
}.

Record System := mkSystem {
  broker : Broker;
  listen : ListenPC;
  conns : gmap nat Conn;
  listenLog : list string
}.

(** [NewBroker()]: empty channels and map, [go broker.listen()] started. *)
Definition NewBroker : Broker := {| Notifier := []; clients := ∅ |}.

Definition NewSystem : System :=
  {| broker := NewBroker; listen := Select; conns := ∅; listenLog := [] |}.

Inductive Label :=
  | Publish (jsonMsg : bytes)   (* a handler's [broker.Notifier <- jsonMsg] *)
  | Connect (c : nat)           (* [ServeHTTP] entered, [messageChan] made *)
  | Register (c : nat)          (* [case s := <-broker.newClients] *)
  | Unregister (c : nat)        (* [case s := <-broker.closingClients] *)
  | Take                        (* [case event := <-broker.Notifier] *)
  | Park                        (* the select finds no case ready *)
  | TrySend                     (* one turn of the range loop *)
  | EndRange                    (* the range loop is over *)
  | Enter (c : nat)             (* [ServeHTTP] reaches its select *)
  | Flush (c : nat)             (* [Fprintf(w, ...)] and [Flush()] done, back in the select *)
  | Cancel (c : nat)            (* [case <-notify: return] *).

#[global] Instance Label_eq_dec : EqDecision Label.
Proof. solve_decision. Defined.

#[global] Instance Phase_eq_dec : EqDecision Phase.
Proof. solve_decision. Defined.

(** The keys of [broker.clients], in the order the loop visits them (Go
    leaves the order open; each key comes once). *)
Definition keys (m : gmap nat bool) : list nat := (map_to_list m).*1.

(** [fmt.Fprintf(w, ...)] of [ServeHTTP] with its format filled in. *)
Definition frame (msg : bytes) : string := "data: " +:+ msg +:+ LF +:+ LF.

(** [select { case clientMessageChan <- event: default: }] on the
    unbuffered channel [c]: the send goes through when its receiver waits,
    and nothing happens otherwise. *)
Definition trySend (event : bytes) (c : nat) (cs : gmap nat Conn)
  : gmap nat Conn :=
  match cs !! c with
  | Some (mkConn AtSelect out) => <[c := mkConn (Flushing event) out]> cs
  | _ => cs
  end.

Definition set_phase (c : nat) (p : Phase) (cs : gmap nat Conn)
  : gmap nat Conn :=
  match cs !! c with
  | Some cn => <[c := mkConn p (stream cn)]> cs
  | None => cs
  end.

Definition phase_of (s : System) (c : nat) : option Phase :=
  phase <$> conns s !! c.

Definition at_select (pc : ListenPC) : bool :=
  match pc with
  | Select | Parked => true
  | Ranging _ _ => false
  end.

(** One move; [None] when the goroutine cannot make it now (a blocked
    send, a case that is not ready). *)
Definition step (l : Label) (s : System) : option System :=
  let b := broker s in
  match l with
  | Publish jsonMsg =>
    match listen s with
    | Parked =>
      (* the receiver sleeps in the select: the value is handed over *)
      Some (mkSystem b (Ranging jsonMsg (keys (clients b))) (conns s)
                     (listenLog s))
    | _ =>
      if decide (length (Notifier b) < NotifierCap) then
        Some (mkSystem (mkBroker (Notifier b ++ [jsonMsg]) (clients b))
                       (listen s) (conns s) (listenLog s))
      else None
    end
  | Connect c =>
    match conns s !! c with
    | None => Some (mkSystem b (listen s)
                             (<[c := mkConn AtNewClients []]> (conns s))
                             (listenLog s))
    | Some _ => None
    end
  | Register c =>
    match phase_of s c, at_select (listen s) with
    | Some AtNewClients, true =>
      let cl := <[c := true]> (clients b) in
      Some (mkSystem (mkBroker (Notifier b) cl) Select
                     (set_phase c Entering (conns s))
                     (listenLog s ++
                        ["Client added. Total: " +:+ pretty (size cl)]))
    | _, _ => None
    end
  | Unregister c =>
    match phase_of s c, at_select (listen s) with
    | Some AtClosingClients, true =>
      let cl := delete c (clients b) in
      Some (mkSystem (mkBroker (Notifier b) cl) Select
                     (set_phase c Returned (conns s))
                     (listenLog s ++
                        ["Client removed. Total: " +:+ pretty (size cl)]))
    | _, _ => None
    end
  | Take =>
    match listen s, Notifier b with
    | Select, event :: rest =>
      Some (mkSystem (mkBroker rest (clients b))
                     (Ranging event (keys (clients b))) (conns s)
                     (listenLog s))
    | _, _ => None
    end
  | Park =>
    match listen s, Notifier b with
    | Select, [] => Some (mkSystem b Parked (conns s) (listenLog s))
    | _, _ => None
    end
  | TrySend =>
    match listen s with
    | Ranging event (c :: todo) =>
      Some (mkSystem b (Ranging event todo) (trySend event c (conns s))
                     (listenLog s))
    | _ => None
    end
  | EndRange =>
    match listen s with
    | Ranging event [] => Some (mkSystem b Select (conns s) (listenLog s))
    | _ => None
    end
  | Enter c =>
    match phase_of s c with
    | Some Entering =>
      Some (mkSystem b (listen s) (set_phase c AtSelect (conns s))
                     (listenLog s))
    | _ => None
    end
  | Flush c =>
    match conns s !! c with
    | Some (mkConn (Flushing msg) out) =>
      Some (mkSystem b (listen s)
                     (<[c := mkConn AtSelect (out ++ [frame msg])]> (conns s))
                     (listenLog s))
    | _ => None
    end
  | Cancel c =>
    match phase_of s c with
    | Some AtSelect =>
      Some (mkSystem b (listen s) (set_phase c AtClosingClients (conns s))
                     (listenLog s))
    | _ => None
    end
  end.

Fixpoint run (tr : list Label) (s : System) : option System :=
  match tr with
  | [] => Some s
  | l :: tr' =>
    match step l s with
    | Some s' => run tr' s'
    | None => None
    end
  end.

(** The moves [listen] makes on its own to hand out an event: no other
    goroutine takes part in them. *)
Definition listen_move (l : Label) : bool :=
  match l with
  | Take | TrySend | EndRange => true
  | _ => false
  end.

Definition registered (s : System) (c : nat) : Prop :=
  is_Some (clients (broker s) !! c).

(** How many copies of [event] a [ServeHTTP] call has received: those it
    has written out and the one it may be writing. *)
Definition copies_conn (event : bytes) (cn : Conn) : nat :=
  length (filter (fun x => x = frame event) (stream cn)) +
  (if decide (phase cn = Flushing event) then 1 else 0).

Definition copies (event : bytes) (s : System) (c : nat) : nat :=
  match conns s !! c with
  | Some cn => copies_conn event cn
  | None => 0
  end.

(** [listen] takes [event] off [Notifier] in move [l]: from the buffer, or
    handed over by the sender while [listen] sleeps. *)
Definition takes (l : Label) (s : System) (event : bytes) : Prop :=
  (l = Take /\ exists rest, listen s = Select /\
                            Notifier (broker s) = event :: rest) \/
  (l = Publish event /\ listen s = Parked).

(** The range loop that hands out [event] has come to [c]: its next send is
    the one on [c]'s channel. *)
Definition at_turn (s : System) (event : bytes) (c : nat) : Prop :=
  exists todo, listen s = Ranging event (c :: todo).

(** One if [c] waits in the [select] of its loop, where a send on its
    channel finds a receiver, and zero if it is anywhere else. *)
Definition waiting (s : System) (c : nat) : nat :=
  if decide (phase_of s c = Some AtSelect) then 1 else 0.

(** How often [x] stands in [l]. *)
Definition occurrences {A} `{EqDecision A} (x : A) (l : list A) : nat :=
  length (filter (fun y => y = x) l).

(** The copies of [event] still on their way to [c] at most: one for each
    time it waits in [Notifier], and one for each turn the range loop still
    owes [c] while it hands out [event]. *)
Definition pending (event : bytes) (c : nat) (s : System) : nat :=
  occurrences event (Notifier (broker s)) +
  match listen s with
  | Ranging e todo => if decide (e = event) then occurrences c todo else 0
  | _ => 0
  end.

Definition potential (event : bytes) (c : nat) (s : System) : nat :=
  copies event s c + pending event c s.

(** The two halves of the delivery property as the specification words
    them.  [event] is published once, in the move from [s1] to [s2].  First
    half: a subscriber registered at that publish, and still registered when
    [listen] is through with everything published, has received one copy.
    Second half: one that was not registered at that publish has none. *)
Definition subscribed_before_gets_one : Prop :=
  forall pre post event c s1 s2 s3,
    run pre NewSystem = Some s1 ->
    step (Publish event) s1 = Some s2 ->
    run post s2 = Some s3 ->
    occurrences (Publish event) (pre ++ Publish event :: post) = 1 ->
    registered s1 c -> registered s3 c ->
    Notifier (broker s3) = [] -> at_select (listen s3) = true ->
    copies event s3 c = 1.

Definition subscribed_after_gets_none : Prop :=
  forall pre post event c s1 s2 s3,
    run pre NewSystem = Some s1 ->
    step (Publish event) s1 = Some s2 ->
    run post s2 = Some s3 ->
    occurrences (Publish event) (pre ++ Publish event :: post) = 1 ->
    ~ registered s1 c ->
    copies event s3 c = 0.

(** The frames a [ServeHTTP] call has received so far: those it wrote, and
    the one it is writing. *)
Definition received (cn : Conn) : list string :=
  stream cn ++ match phase cn with
               | Flushing msg => [frame msg]
               | _ => []
               end.

(** The events a run publishes, in order. *)
Definition published (tr : list Label) : list bytes :=
  omap (fun l => match l with Publish jsonMsg => Some jsonMsg | _ => None end)
       tr.

(** The event [listen] is handing out, if any. *)
Definition current (s : System) : list bytes :=
  match listen s with
  | Ranging event _ => [event]
  | _ => []
  end.

(** The events [c] has been offered, when [past] are those whose range
    loop is over: the one being handed out counts once the loop is past
    [c]. *)
Definition offered (s : System) (past : list bytes) (c : nat) : list bytes :=
  match listen s with
  | Ranging event todo => if decide (c ∈ todo) then past else (past ++ [event])%list
  | _ => past
  end.

(** Everything published, [P], is handed out ([past]), being handed out, or
    waiting in [Notifier], in this order; and a subscriber has received
    some of what it was offered, in order. *)
Definition in_order (past P : list bytes) (s : System) : Prop :=
  P = (past ++ current s ++ Notifier (broker s))%list /\
  (listen s = Parked -> Notifier (broker s) = []) /\
  (forall event todo, listen s = Ranging event todo -> NoDup todo) /\
  (forall c cn, conns s !! c = Some cn ->
     sublist (received cn) (frame <$> offered s past c)).

(** The places of a [ServeHTTP] call between its registration and its
    deregistration by [listen]. *)
Definition subscribed (p : Phase) : bool :=
  match p with
  | Entering | AtSelect | Flushing _ | AtClosingClients => true
  | AtNewClients | Returned => false
  end.

(** [broker.clients] holds [true] for the calls that are subscribed and
    nothing else, and the range loop only has registered clients left to
    visit. *)
Definition clients_live (s : System) : Prop :=
  (forall c, clients (broker s) !! c =
             if from_option subscribed false (phase_of s c)
             then Some true else None) /\
  (forall event todo c,
     listen s = Ranging event todo -> c ∈ todo -> registered s c).

End Sse.

(** ** An implementation of the library functions

    Enough of Go 1.22's [strconv], [fmt] and [encoding/json] to run the
    handlers on examples.  [ParseBool] is the whole function.
    [ParseFloat_decimal] is [ParseFloat] on plain decimal literals only
    (sign, digits, one point; at most 18 digits after the point and a digit
    string below 2^52, where Go too divides the exact integer by the exact
    power of ten); every other spelling is rejected here, also those Go
    accepts (longer literals, exponents, hexadecimal, underscores, Inf and
    NaN).  [Marshal] escapes ASCII as Go does and copies the bytes from 0x80
    on. *)
Module GoRuntime.

(** [strconv.ParseBool]: the accepted spellings. *)
Definition ParseBool (str : string) : option bool :=
  if bool_decide (str ∈ ["1"; "t"; "T"; "true"; "TRUE"; "True"]) then Some true
  else if bool_decide (str ∈ ["0"; "f"; "F"; "false"; "FALSE"; "False"])
  then Some false
  else None.

Definition digit (c : ascii) : option Z :=
  let n := Z.of_N (N_of_ascii c) in
  if ((48 <=? n) && (n <=? 57))%Z then Some (n - 48)%Z else None.

(** The digits and the point: the integer the digits spell and how many of
    them follow the point. *)
Fixpoint readFloat (s : string) (mantissa frac : Z) (sawdot sawdigits : bool)
  : option (Z * Z) :=
  match s with
  | EmptyString => if sawdigits then Some (mantissa, frac) else None
  | String c rest =>
    if decide (c = "."%char) then
      if sawdot then None else readFloat rest mantissa frac true sawdigits
    else
      match digit c with
      | Some d =>
        readFloat rest (10 * mantissa + d)%Z
                  (if sawdot then frac + 1 else frac)%Z sawdot true
      | None => None
      end
  end.

Definition float_of_Z (z : Z) : float64 := PrimFloat.of_uint63 (Uint63.of_Z z).

Definition ParseFloat_decimal (s : string) : option float64 :=
  let '(neg, t) :=
    match s with
    | String "+" t => (false, t)
    | String "-" t => (true, t)
    | _ => (false, s)
    end in
  match readFloat t 0 0 false false with
  | Some (mantissa, frac) =>
    if ((mantissa <? 2 ^ 52) && (frac <=? 18))%Z then
      let f := float_of_Z mantissa in
      let f := if neg then PrimFloat.opp f else f in
      Some (if (frac =? 0)%Z then f
            else PrimFloat.div f (float_of_Z (10 ^ frac)))
    else None
  | None => None
  end.

(** [n / d] rounded to the nearest integer, a tie to the even one. *)
Definition div_half_even (n d : Z) : Z :=
  let q := (n / d)%Z in
  let r := (n mod d)%Z in
  if (2 * r <? d)%Z then q
  else if (d <? 2 * r)%Z then (q + 1)%Z
  else if Z.even q then q else (q + 1)%Z.

Definition decimal (z : Z) : string := pretty (Z.to_N z).

(** Six digits, zeros in front. *)
Definition pad6 (z : Z) : string :=
  match decimal (10 ^ 6 + z) with
  | String _ t => t
  | EmptyString => ""
  end.

(** The verb [%.6f]: the exact value rounded to six decimals, a tie to
    the even digit; the sign is that of the float, also on zero. *)
Definition fmt_f6 (f : float64) : string :=
  let sign (s : bool) := if s then "-" else "" in
  match Prim2SF f with
  | S754_nan => "NaN"
  | S754_infinity false => "+Inf"
  | S754_infinity true => "-Inf"
  | S754_zero s => sign s +:+ "0.000000"
  | S754_finite s m e =>
    let n := (Z.pos m * 10 ^ 6)%Z in
    let q := if (0 <=? e)%Z then (n * 2 ^ e)%Z
             else div_half_even n (2 ^ (- e)) in
    sign s +:+ decimal (q / 10 ^ 6) +:+ "." +:+ pad6 (q mod 10 ^ 6)
  end.

Definition hex (n : N) : string :=
  match String.get (N.to_nat n) "0123456789abcdef" with
  | Some c => String c ""
  | None => ""
  end.

Definition quote : string := String "034"%char "".

(** One byte of a JSON string, with the HTML-safe escaping [Marshal] uses. *)
Definition escape_byte (c : ascii) : string :=
  let n := N_of_ascii c in
  if decide (c = "034"%char) then "\" +:+ quote
  else if decide (c = "\"%char) then "\\"
  else if decide (n = 8%N) then "\b"
  else if decide (n = 12%N) then "\f"
  else if decide (n = 10%N) then "\n"
  else if decide (n = 13%N) then "\r"
  else if decide (n = 9%N) then "\t"
  else if bool_decide (n < 32)%N || bool_decide (c ∈ ["<"; ">"; "&"]%char) then
    "\u00" +:+ hex (n / 16) +:+ hex (n mod 16)
  else String c "".

Fixpoint escape (s : string) : string :=
  match s with
  | EmptyString => ""
  | String c rest => escape_byte c +:+ escape rest
  end.

Definition Marshal (msg : SSEMessage) : bytes :=
  "{" +:+ quote +:+ "type" +:+ quote +:+ ":" +:+ quote
  +:+ escape (Type_ msg) +:+ quote +:+ ","
  +:+ quote +:+ "message" +:+ quote +:+ ":" +:+ quote
  +:+ escape (Message msg) +:+ quote +:+ "}".

#[global] Instance lib : GoLib :=
  Build_GoLib ParseBool ParseFloat_decimal fmt_f6 Marshal eq_refl eq_refl.

End GoRuntime.

(** ** The vocabulary of the specification *)

(** A request with the given query parameters, one value each. *)
Definition query (kvs : list (string * string)) : Request :=
  {| URL_Query := list_to_map (prod_map id (fun v => [v]) <$> kvs) |}.

(** What [http.Error] leaves in a fresh [ResponseWriter]. *)
Definition rejection (msg : string) : ResponseWriter :=
  {| status := Some StatusBadRequest; body := msg +:+ LF |}.

Inductive HandlerError := MissingField | InvalidBoolean | InvalidNumber.

(** The error a response stands for: a 400 with one of the five messages. *)
Definition error_of (w : ResponseWriter) : option HandlerError :=
  if decide (status w = Some StatusBadRequest) then
    if bool_decide (body w ∈ ["Missing id param" +:+ LF;
                              "Missing value param" +:+ LF]) then
      Some MissingField
    else if bool_decide (body w = "Invalid boolean value" +:+ LF) then
      Some InvalidBoolean
    else if bool_decide (body w ∈ ["Invalid lat param" +:+ LF;
                                   "Invalid lon param" +:+ LF]) then
      Some InvalidNumber
    else None
  else None.

Definition succeeds (w : ResponseWriter) : Prop :=
  status w = Some StatusOK /\ error_of w = None.

(** A statement about the two handlers, made of both revisions. *)
Definition both_revisions `{GoLib}
    (P : (Request -> Go unit) -> (Request -> Go unit) -> Prop) : Prop :=
  P Plain.updateHandler Plain.gpsHandler /\
  P Sse.updateHandler Sse.gpsHandler.

(** What a call that announces its request leaves behind: one more line in
    the log, and one more value sent on [Notifier], the JSON of an
    [SSEMessage] of type [msgType] whose message is that line. *)
Definition announces `{GoLib} (handler : Request -> Go unit)
    (msgType : string) (r : Request) (g : World) : Prop :=
  exists logMsg,
    logged (serve handler r g).1 = (logged g ++ [logMsg])%list /\
    notified (serve handler r g).1 =
      (notified g ++
         [json_Marshal {| Type_ := msgType; Message := logMsg |}])%list.

(** A call that logs nothing and sends nothing. *)
Definition quiet (handler : Request -> Go unit) (r : Request) (g : World)
  : Prop :=
  logged (serve handler r g).1 = logged g /\
  notified (serve handler r g).1 = notified g.

(** The globals the server can be in: those of a fresh process, and those
    after one more request to either handler.  A call is one step here.
    For [devices] and [gpsLocations] this loses nothing: a call writes its
    map once, in one assignment under the map's mutex, so calls served at
    the same time leave the maps that serving them one by one, in the order
    of their assignments, leaves.  For [logged] and [notified] it does: a
    call logs and sends after it has released the mutex, and the lines and
    events of calls served at the same time can fall in any order; nothing
    below is stated about that order. *)
Inductive reachable (updateHandler gpsHandler : Request -> Go unit)
  : World -> Prop :=
  | reachable_initial : reachable updateHandler gpsHandler initial
  | reachable_update r g :
      reachable updateHandler gpsHandler g ->
      reachable updateHandler gpsHandler (serve updateHandler r g).1
  | reachable_gps r g :
      reachable updateHandler gpsHandler g ->
      reachable updateHandler gpsHandler (serve gpsHandler r g).1.

(** A world in which both maps already hold an entry. *)
Definition seen_before : World :=
  {| gpsLocations :=
       {[ "dev-2" := {| ID := "dev-2"; Lat := 1%float; Lon := 2%float |} ]};
     devices := {[ "dev-1" := false ]};
     logged := []; notified := [] |}.

(** The key and the record's identifier agree. *)
Definition keyed_by_ID (m : gmap string GPSLocation) : Prop :=
  forall k loc, m !! k = Some loc -> ID loc = k.

(** A request to one of the two endpoints, and a history of them served
    one after the other. *)
Inductive Call :=
  | Update (r : Request)      (* GET /update *)
  | Gps (r : Request)         (* GET /gps *).

Definition serve_call (updateHandler gpsHandler : Request -> Go unit)
    (c : Call) (g : World) : World :=
  match c with
  | Update r => (serve updateHandler r g).1
  | Gps r => (serve gpsHandler r g).1
  end.

Definition serve_calls (updateHandler gpsHandler : Request -> Go unit)
    (cs : list Call) (g : World) : World :=
  foldl (fun g c => serve_call updateHandler gpsHandler c g) g cs.

(** ** The handlers, case by case *)

Ltac run_handler :=
  unfold serve, Plain.updateHandler, Plain.gpsHandler, Sse.updateHandler,
    Sse.gpsHandler, Sse.broadcast; cbn.

Section handler_cases.
Context `{GoLib}.
Implicit Types (r : Request) (g : World).

Lemma Plain_update_result r g :
  let id := Get (URL_Query r) "id" in
  let val := Get (URL_Query r) "value" in
  serve Plain.updateHandler r g =
    if decide (id = "") then (g, rejection "Missing id param")
    else if decide (val = "") then (g, rejection "Missing value param")
    else match ParseBool val with
         | None => (g, rejection "Invalid boolean value")
         | Some parsed =>
           ({| gpsLocations := gpsLocations g;
               devices := <[id := parsed]> (devices g);
               logged := logged g ++
                 ["Device " +:+ id +:+ " -> " +:+ fmt_v parsed +:+ LF];
               notified := notified g |},
            {| status := Some StatusOK;
               body := "Device " +:+ id +:+ " set to " +:+ fmt_v parsed
                       +:+ LF |})
         end.
Proof.
  run_handler. destruct g.
  repeat case_decide; try reflexivity.
  destruct (ParseBool _); reflexivity.
Qed.

Lemma Sse_update_result r g :
  let id := Get (URL_Query r) "id" in
  let val := Get (URL_Query r) "value" in
  serve Sse.updateHandler r g =
    if decide (id = "") then (g, rejection "Missing id param")
    else if decide (val = "") then (g, rejection "Missing value param")
    else match ParseBool val with
         | None => (g, rejection "Invalid boolean value")
         | Some parsed =>
           let logMsg := if parsed then "Attendance registered for " +:+ id
                         else "Attendance unregistered for " +:+ id in
           ({| gpsLocations := gpsLocations g;
               devices := <[id := parsed]> (devices g);
               logged := logged g ++ [logMsg];
               notified := notified g ++
                 [json_Marshal {| Type_ := "update"; Message := logMsg |}] |},
            {| status := Some StatusOK;
               body := "Device " +:+ id +:+ " set to " +:+ fmt_v parsed
                       +:+ LF |})
         end.
Proof.
  run_handler. destruct g.
  repeat case_decide; try reflexivity.
  destruct (ParseBool _); reflexivity.
Qed.

Lemma Plain_gps_result r g :
  let id := Get (URL_Query r) "id" in
  serve Plain.gpsHandler r g =
    if decide (id = "") then (g, rejection "Missing id param")
    else match ParseFloat (Get (URL_Query r) "lat") with
         | None => (g, rejection "Invalid lat param")
         | Some lat =>
           match ParseFloat (Get (URL_Query r) "lon") with
           | None => (g, rejection "Invalid lon param")
           | Some lon =>
             ({| gpsLocations :=
                   <[id := {| ID := id; Lat := lat; Lon := lon |}]>
                     (gpsLocations g);
                 devices := devices g;
                 logged := logged g ++
                   ["GPS Update: Device " +:+ id +:+ " at " +:+ fmt_f6 lat
                    +:+ ", " +:+ fmt_f6 lon +:+ LF];
                 notified := notified g |},
              {| status := Some StatusOK;
                 body := "GPS updated for " +:+ id +:+ ": " +:+ fmt_f6 lat
                         +:+ ", " +:+ fmt_f6 lon +:+ LF |})
           end
         end.
Proof.
  run_handler. destruct g.
  case_decide; try reflexivity.
  destruct (ParseFloat _); try reflexivity.
  destruct (ParseFloat _); reflexivity.
Qed.

Lemma Sse_gps_result r g :
  let id := Get (URL_Query r) "id" in
  serve Sse.gpsHandler r g =
    if decide (id = "") then (g, rejection "Missing id param")
    else match ParseFloat (Get (URL_Query r) "lat") with
         | None => (g, rejection "Invalid lat param")
         | Some lat =>
           match ParseFloat (Get (URL_Query r) "lon") with
           | None => (g, rejection "Invalid lon param")
           | Some lon =>
             let logMsg := "Location update received for " +:+ id +:+ " "
                           +:+ fmt_f6 lat +:+ ", " +:+ fmt_f6 lon in
             ({| gpsLocations :=
                   <[id := {| ID := id; Lat := lat; Lon := lon |}]>
                     (gpsLocations g);
                 devices := devices g;
                 logged := logged g ++ [logMsg];
                 notified := notified g ++
                   [json_Marshal {| Type_ := "gps"; Message := logMsg |}] |},
              {| status := Some StatusOK;
                 body := "GPS updated for " +:+ id +:+ ": " +:+ fmt_f6 lat
                         +:+ ", " +:+ fmt_f6 lon +:+ LF |})
           end
         end.
Proof.
  run_handler. destruct g.
  case_decide; try reflexivity.
  destruct (ParseFloat _); try reflexivity.
  destruct (ParseFloat _); reflexivity.
Qed.

End handler_cases.

Ltac in_both :=
  split; cbn beta;
  [ rewrite ?Plain_update_result, ?Plain_gps_result
  | rewrite ?Sse_update_result, ?Sse_gps_result ]; cbn zeta.

Lemma parsed_bool_nonempty `{GoLib} (val : string) (v : bool) :
  ParseBool val = Some v -> val <> "".
Proof. intros Hv ->. rewrite ParseBool_empty in Hv. discriminate. Qed.

(** ** Attendance *)

(** C1: for a non-empty [id] and a [value] that parses as the boolean [v],
    after [updateHandler] the attendance map holds exactly [v] at [id],
    whatever it held before: the map is the old one with [id] overwritten. *)
Theorem attendance_write_read `{GoLib} (r : Request) (g : World) (v : bool) :
  let id := Get (URL_Query r) "id" in
  id <> "" ->
  ParseBool (Get (URL_Query r) "value") = Some v ->
  both_revisions (fun updateHandler _ =>
    let g' := (serve updateHandler r g).1 in
    devices g' !! id = Some v /\ devices g' = <[id := v]> (devices g)).
Proof.
  intros id Hid Hv. pose proof (parsed_bool_nonempty _ _ Hv) as Hval.
  in_both; fold id; rewrite !decide_False by done; rewrite Hv; cbn;
    (split; [apply lookup_insert_eq | reflexivity]).
Qed.

Lemma attendance_write_read_witness :
  let r := query [("id", "dev-1"); ("value", "true")] in
  Get (URL_Query r) "id" <> "" /\
  GoRuntime.ParseBool (Get (URL_Query r) "value") = Some true /\
  devices seen_before !! "dev-1" = Some false /\
  devices (serve Sse.updateHandler r seen_before).1 !! "dev-1" = Some true.
Proof.
  intros r.
  assert (Hid : Get (URL_Query r) "id" <> "") by (vm_compute; discriminate).
  assert (Hv : GoRuntime.ParseBool (Get (URL_Query r) "value") = Some true)
    by reflexivity.
  split; [exact Hid | split; [exact Hv | split; [reflexivity |]]].
  exact (proj1 (proj2 (attendance_write_read r seen_before true Hid Hv))).
Defined.

(** C3: [updateHandler] answers [MissingField] when [id] is empty, whatever
    the value; [MissingField] when [id] is there and [value] is empty;
    [InvalidBoolean] when both are there and the value does not parse; and
    it succeeds in the one case left. *)
Theorem attendance_failures `{GoLib} (r : Request) (g : World) :
  let id := Get (URL_Query r) "id" in
  let val := Get (URL_Query r) "value" in
  both_revisions (fun updateHandler _ =>
    let resp := (serve updateHandler r g).2 in
    (id = "" -> error_of resp = Some MissingField) /\
    (id <> "" -> val = "" -> error_of resp = Some MissingField) /\
    (id <> "" -> val <> "" -> ParseBool val = None ->
       error_of resp = Some InvalidBoolean) /\
    (id <> "" -> val <> "" -> is_Some (ParseBool val) -> succeeds resp) /\
    (succeeds resp \/ is_Some (error_of resp))).
Proof.
  intros id val.
  in_both; fold id val;
    (destruct (decide (id = "")) as [Hid|Hid];
     [| destruct (decide (val = "")) as [Hval|Hval];
        [| destruct (ParseBool val) as [b|] eqn:Hb ]]; cbn;
     repeat split; intros; try done; try (by right); try (by left);
     try (by exfalso; eapply is_Some_None)).
Qed.

Lemma attendance_failures_witness :
  error_of (serve Sse.updateHandler
              (query [("id", ""); ("value", "true")]) initial).2
    = Some MissingField /\
  error_of (serve Sse.updateHandler (query [("id", "dev-1")]) initial).2
    = Some MissingField /\
  error_of (serve Sse.updateHandler
              (query [("id", "dev-1"); ("value", "yes")]) initial).2
    = Some InvalidBoolean /\
  succeeds (serve Sse.updateHandler
              (query [("id", "dev-1"); ("value", "T")]) initial).2.
Proof.
  pose proof (fun r => proj2 (attendance_failures r initial)) as H;
    cbn beta zeta in H.
  destruct (H (query [("id", ""); ("value", "true")])) as (H1 & _).
  destruct (H (query [("id", "dev-1")])) as (_ & H2 & _).
  destruct (H (query [("id", "dev-1"); ("value", "yes")])) as (_ & _ & H3 & _).
  destruct (H (query [("id", "dev-1"); ("value", "T")])) as (_ & _ & _ & H4 & _).
  split; [| split; [| split]].
  - apply H1. reflexivity.
  - apply H2; [vm_compute; discriminate | reflexivity].
  - apply H3; [vm_compute; discriminate | vm_compute; discriminate
              | reflexivity].
  - apply H4; [vm_compute; discriminate | vm_compute; discriminate
              | vm_compute; eauto].
Defined.

(** ** Location *)

(** C2: for a non-empty [id] and [lat], [lon] that both parse, after
    [gpsHandler] the location map holds at [id] the record of exactly the
    two parsed numbers, whatever it held before. *)
Theorem location_write_read `{GoLib} (r : Request) (g : World)
    (lat lon : float64) :
  let id := Get (URL_Query r) "id" in
  id <> "" ->
  ParseFloat (Get (URL_Query r) "lat") = Some lat ->
  ParseFloat (Get (URL_Query r) "lon") = Some lon ->
  both_revisions (fun _ gpsHandler =>
    let g' := (serve gpsHandler r g).1 in
    gpsLocations g' !! id = Some {| ID := id; Lat := lat; Lon := lon |} /\
    gpsLocations g' =
      <[id := {| ID := id; Lat := lat; Lon := lon |}]> (gpsLocations g)).
Proof.
  intros id Hid Hlat Hlon.
  in_both; fold id; rewrite decide_False by done; rewrite Hlat, Hlon; cbn;
    (split; [apply lookup_insert_eq | reflexivity]).
Qed.

Lemma location_write_read_witness :
  let r := query [("id", "dev-2"); ("lat", "37.7749"); ("lon", "-122.4194")] in
  exists lat lon,
    Get (URL_Query r) "id" <> "" /\
    GoRuntime.ParseFloat_decimal "37.7749" = Some lat /\
    GoRuntime.ParseFloat_decimal "-122.4194" = Some lon /\
    gpsLocations seen_before !! "dev-2" =
      Some {| ID := "dev-2"; Lat := 1%float; Lon := 2%float |} /\
    gpsLocations (serve Sse.gpsHandler r seen_before).1 !! "dev-2" =
      Some {| ID := "dev-2"; Lat := lat; Lon := lon |}.
Proof.
  intros r.
  assert (Hid : Get (URL_Query r) "id" <> "") by (vm_compute; discriminate).
  destruct (GoRuntime.ParseFloat_decimal "37.7749") as [lat|] eqn:Hlat;
    [| vm_compute in Hlat; discriminate].
  destruct (GoRuntime.ParseFloat_decimal "-122.4194") as [lon|] eqn:Hlon;
    [| vm_compute in Hlon; discriminate].
  exists lat, lon.
  split; [exact Hid | split; [reflexivity | split; [reflexivity |
    split; [reflexivity |]]]].
  exact (proj1 (proj2 (location_write_read r seen_before lat lon Hid Hlat Hlon))).
Defined.

(** C10: for a non-empty [id], a [lat] that does not parse (the empty
    string and an absent parameter among them) is answered with the
    rejection for [lat], an [InvalidNumber] and not a [MissingField], and
    the globals stay as they were; [lon] has no part in the answer. *)
Theorem unparsable_lat `{GoLib} (r : Request) (g : World) :
  let id := Get (URL_Query r) "id" in
  let latStr := Get (URL_Query r) "lat" in
  id <> "" ->
  latStr = "" \/ ParseFloat latStr = None ->
  both_revisions (fun _ gpsHandler =>
    serve gpsHandler r g = (g, rejection "Invalid lat param") /\
    error_of (serve gpsHandler r g).2 = Some InvalidNumber /\
    forall r', Get (URL_Query r') "id" = id ->
               Get (URL_Query r') "lat" = latStr ->
               serve gpsHandler r' g = serve gpsHandler r g).
Proof.
  intros id latStr Hid Hlat.
  assert (ParseFloat latStr = None) as Hnone.
  { destruct Hlat as [-> | ?]; [apply ParseFloat_empty | done]. }
  in_both; fold id latStr; rewrite decide_False by done; rewrite Hnone;
    (split; [reflexivity | split; [reflexivity |]]);
    intros r' Hid' Hlat'.
  - rewrite Plain_gps_result. cbn zeta. rewrite Hid', Hlat'.
    rewrite decide_False by done. by rewrite Hnone.
  - rewrite Sse_gps_result. cbn zeta. rewrite Hid', Hlat'.
    rewrite decide_False by done. by rewrite Hnone.
Qed.

Lemma unparsable_lat_witness :
  let r := query [("id", "dev-3"); ("lat", "abc"); ("lon", "1.0")] in
  let r0 := query [("id", "dev-3"); ("lon", "1.0")] in
  (Get (URL_Query r) "id" <> "" /\
   GoRuntime.ParseFloat_decimal (Get (URL_Query r) "lat") = None /\
   serve Sse.gpsHandler r seen_before
     = (seen_before, rejection "Invalid lat param")) /\
  (Get (URL_Query r0) "lat" = "" /\
   error_of (serve Sse.gpsHandler r0 seen_before).2 = Some InvalidNumber).
Proof.
  intros r r0.
  assert (Hid : Get (URL_Query r) "id" <> "") by (vm_compute; discriminate).
  assert (Hid0 : Get (URL_Query r0) "id" <> "") by (vm_compute; discriminate).
  assert (Hlat : GoRuntime.ParseFloat_decimal (Get (URL_Query r) "lat") = None)
    by reflexivity.
  assert (Hlat0 : Get (URL_Query r0) "lat" = "") by reflexivity.
  split.
  - split; [exact Hid | split; [exact Hlat |]].
    exact (proj1 (proj2 (unparsable_lat r seen_before Hid (or_intror Hlat)))).
  - split; [exact Hlat0 |].
    exact (proj1 (proj2 (proj2
             (unparsable_lat r0 seen_before Hid0 (or_introl Hlat0))))).
Defined.

(** ** Both handlers *)

(** C4: a request that is rejected ([MissingField], [InvalidBoolean] or
    [InvalidNumber]) leaves the globals, and so both maps, as they were. *)
Theorem rejected_leaves_stores `{GoLib} (r : Request) (g : World) :
  both_revisions (fun updateHandler gpsHandler =>
    (is_Some (error_of (serve updateHandler r g).2) ->
       (serve updateHandler r g).1 = g) /\
    (is_Some (error_of (serve gpsHandler r g).2) ->
       (serve gpsHandler r g).1 = g)).
Proof.
  in_both;
    (split;
     [ repeat case_decide; try done;
       destruct (ParseBool _); [cbn; by intros [? ?] | done]
     | case_decide; try done;
       destruct (ParseFloat _); [| done];
       destruct (ParseFloat _); [cbn; by intros [? ?] | done] ]).
Qed.

Lemma rejected_leaves_stores_witness :
  let r1 := query [("id", ""); ("value", "true")] in
  let r2 := query [("id", "dev-3"); ("lat", "abc"); ("lon", "1.0")] in
  (error_of (serve Sse.updateHandler r1 seen_before).2 = Some MissingField /\
   (serve Sse.updateHandler r1 seen_before).1 = seen_before) /\
  (error_of (serve Sse.gpsHandler r2 seen_before).2 = Some InvalidNumber /\
   (serve Sse.gpsHandler r2 seen_before).1 = seen_before).
Proof.
  intros r1 r2.
  assert (H1 : error_of (serve Sse.updateHandler r1 seen_before).2
               = Some MissingField) by reflexivity.
  assert (H2 : error_of (serve Sse.gpsHandler r2 seen_before).2
               = Some InvalidNumber) by reflexivity.
  split; (split; [assumption |]).
  - apply (proj1 (proj2 (rejected_leaves_stores r1 seen_before))).
    rewrite H1. eauto.
  - apply (proj2 (proj2 (rejected_leaves_stores r2 seen_before))).
    rewrite H2. eauto.
Defined.

(** C6: [updateHandler] never changes the location map and [gpsHandler]
    never changes the attendance map, whether the request is accepted or
    rejected. *)
Theorem maps_independent `{GoLib} (r : Request) (g : World) :
  both_revisions (fun updateHandler gpsHandler =>
    gpsLocations (serve updateHandler r g).1 = gpsLocations g /\
    devices (serve gpsHandler r g).1 = devices g).
Proof.
  in_both;
    (split;
     [ repeat case_decide; try done; by destruct (ParseBool _)
     | case_decide; try done;
       destruct (ParseFloat _); [| done]; by destruct (ParseFloat _) ]).
Qed.

Lemma keyed_by_ID_insert (m : gmap string GPSLocation) (id : string)
    (lat lon : float64) :
  keyed_by_ID m ->
  keyed_by_ID (<[id := {| ID := id; Lat := lat; Lon := lon |}]> m).
Proof.
  intros Hm k loc. rewrite lookup_insert. case_decide.
  - intros [= <-]. done.
  - apply Hm.
Qed.

Lemma serve_keeps_keyed_by_ID `{GoLib} (r : Request) (g : World) :
  keyed_by_ID (gpsLocations g) ->
  both_revisions (fun updateHandler gpsHandler =>
    keyed_by_ID (gpsLocations (serve updateHandler r g).1) /\
    keyed_by_ID (gpsLocations (serve gpsHandler r g).1)).
Proof.
  intros Hg.
  in_both;
    (split;
     [ repeat case_decide; try done; by destruct (ParseBool _)
     | case_decide; try done;
       destruct (ParseFloat _); [| done];
       destruct (ParseFloat _); [| done];
       by apply keyed_by_ID_insert ]).
Qed.

(** C9: in every state the server can reach, each key of the location map
    is the [ID] of the record stored under it. *)
Theorem location_key_is_ID `{GoLib} (g : World) (k : string)
    (loc : GPSLocation) :
  both_revisions (fun updateHandler gpsHandler =>
    reachable updateHandler gpsHandler g ->
    gpsLocations g !! k = Some loc -> ID loc = k).
Proof.
  split; cbn beta; intros Hreach; revert k loc;
    change (keyed_by_ID (gpsLocations g)).
  - induction Hreach as [| r g _ IH | r g _ IH].
    + intros k loc Hl; cbn in Hl; by rewrite lookup_empty in Hl.
    + destruct (serve_keeps_keyed_by_ID r g IH) as [[Hu _] _]. exact Hu.
    + destruct (serve_keeps_keyed_by_ID r g IH) as [[_ Hg] _]. exact Hg.
  - induction Hreach as [| r g _ IH | r g _ IH].
    + intros k loc Hl; cbn in Hl; by rewrite lookup_empty in Hl.
    + destruct (serve_keeps_keyed_by_ID r g IH) as [_ [Hu _]]. exact Hu.
    + destruct (serve_keeps_keyed_by_ID r g IH) as [_ [_ Hg]]. exact Hg.
Qed.

Lemma location_key_is_ID_witness :
  let r := query [("id", "dev-2"); ("lat", "37.7749"); ("lon", "-122.4194")] in
  let g := (serve Sse.gpsHandler r initial).1 in
  exists loc,
    reachable Sse.updateHandler Sse.gpsHandler g /\
    gpsLocations g !! "dev-2" = Some loc /\
    ID loc = "dev-2".
Proof.
  intros r g.
  assert (Hreach : reachable Sse.updateHandler Sse.gpsHandler g)
    by (apply reachable_gps, reachable_initial).
  destruct (gpsLocations g !! "dev-2") as [loc|] eqn:Hloc;
    [| vm_compute in Hloc; discriminate].
  exists loc. split; [exact Hreach | split; [reflexivity |]].
  exact (proj2 (location_key_is_ID g "dev-2" loc) Hreach Hloc).
Defined.

(** C5, as the code has it: an accepted [updateHandler] request is answered
    with status 200 and the text [Device {id} set to {bool}] followed by a
    newline, an accepted [gpsHandler] request with status 200 and the text
    [GPS updated for {id}: {lat}, {lon}], both numbers under the verb
    [%.6f], followed by a newline; the request for dev-2 at 37.7749,
    -122.4194 is answered with 37.774900 and -122.419400. *)
Theorem accepted_responses `{GoLib} (r : Request) (g : World) :
  let id := Get (URL_Query r) "id" in
  both_revisions (fun updateHandler gpsHandler =>
    (forall v, id <> "" -> ParseBool (Get (URL_Query r) "value") = Some v ->
       (serve updateHandler r g).2 =
         {| status := Some StatusOK;
            body := "Device " +:+ id +:+ " set to " +:+ fmt_v v +:+ LF |}) /\
    (forall lat lon, id <> "" ->
       ParseFloat (Get (URL_Query r) "lat") = Some lat ->
       ParseFloat (Get (URL_Query r) "lon") = Some lon ->
       (serve gpsHandler r g).2 =
         {| status := Some StatusOK;
            body := "GPS updated for " +:+ id +:+ ": " +:+ fmt_f6 lat
                    +:+ ", " +:+ fmt_f6 lon +:+ LF |})) /\
  (let r2 := query [("id", "dev-2"); ("lat", "37.7749");
                    ("lon", "-122.4194")] in
   body (serve (Plain.gpsHandler (H := GoRuntime.lib)) r2 g).2 =
     "GPS updated for dev-2: 37.774900, -122.419400" +:+ LF /\
   body (serve (Sse.gpsHandler (H := GoRuntime.lib)) r2 g).2 =
     "GPS updated for dev-2: 37.774900, -122.419400" +:+ LF).
Proof.
  intros id. split.
  - in_both; fold id.
    + split.
      * intros v Hid Hv. pose proof (parsed_bool_nonempty _ _ Hv).
        rewrite !decide_False by done. by rewrite Hv.
      * intros lat lon Hid Hlat Hlon.
        rewrite decide_False by done. by rewrite Hlat, Hlon.
    + split.
      * intros v Hid Hv. pose proof (parsed_bool_nonempty _ _ Hv).
        rewrite !decide_False by done. by rewrite Hv.
      * intros lat lon Hid Hlat Hlon.
        rewrite decide_False by done. by rewrite Hlat, Hlon.
  - cbn zeta. rewrite Plain_gps_result, Sse_gps_result. split; reflexivity.
Qed.

Lemma accepted_responses_witness :
  let r1 := query [("id", "dev-1"); ("value", "true")] in
  Get (URL_Query r1) "id" <> "" /\
  GoRuntime.ParseBool (Get (URL_Query r1) "value") = Some true /\
  (serve Sse.updateHandler r1 initial).2 =
    {| status := Some StatusOK;
       body := "Device dev-1 set to true" +:+ LF |}.
Proof.
  intros r1.
  assert (Hid : Get (URL_Query r1) "id" <> "") by (vm_compute; discriminate).
  assert (Hv : GoRuntime.ParseBool (Get (URL_Query r1) "value") = Some true)
    by reflexivity.
  split; [exact Hid | split; [exact Hv |]].
  exact (proj1 (proj2 (proj1 (accepted_responses r1 initial))) true Hid Hv).
Defined.

(** C5 as worded fails: the body is not the bare text, for either handler. *)
Lemma response_is_not_bare_text :
  body (serve Sse.updateHandler
          (query [("id", "dev-1"); ("value", "true")]) initial).2
    <> "Device dev-1 set to true" /\
  body (serve Sse.gpsHandler
          (query [("id", "dev-2"); ("lat", "37.7749"); ("lon", "-122.4194")])
          initial).2
    <> "GPS updated for dev-2: 37.774900, -122.419400".
Proof. split; vm_compute; discriminate. Qed.

(** ** The broker *)

Import Sse.

#[local] Set Warnings "-clear-no-such-hyp".

Lemma occurrences_nil {A} `{EqDecision A} (x : A) : occurrences x [] = 0.
Proof. reflexivity. Qed.

Lemma occurrences_cons {A} `{EqDecision A} (x y : A) (l : list A) :
  occurrences x (y :: l) = (if decide (y = x) then 1 else 0) + occurrences x l.
Proof. unfold occurrences. rewrite filter_cons. by case_decide. Qed.

Lemma occurrences_app {A} `{EqDecision A} (x : A) (l k : list A) :
  occurrences x (l ++ k) = occurrences x l + occurrences x k.
Proof. unfold occurrences. by rewrite filter_app, length_app. Qed.

Lemma occurrences_absent {A} `{EqDecision A} (x : A) (l : list A) :
  x ∉ l -> occurrences x l = 0.
Proof.
  induction l as [|y l IH]; [done |].
  rewrite not_elem_of_cons, occurrences_cons. intros [Hxy Hl].
  rewrite decide_False by done. by rewrite IH.
Qed.

Lemma occurrences_NoDup {A} `{EqDecision A} (x : A) (l : list A) :
  NoDup l -> occurrences x l <= 1.
Proof.
  induction 1 as [|y l Hy _ IH]; [unfold occurrences; simpl; lia |].
  rewrite occurrences_cons. case_decide as Hxy; [| lia].
  subst y. rewrite occurrences_absent by done. lia.
Qed.

Lemma occurrences_keys (c : nat) (m : gmap nat bool) :
  occurrences c (keys m) <= 1.
Proof. apply occurrences_NoDup, NoDup_fst_map_to_list. Qed.

Lemma occurrences_keys_None (c : nat) (m : gmap nat bool) :
  m !! c = None -> occurrences c (keys m) = 0.
Proof.
  intros Hc. apply occurrences_absent. unfold keys.
  rewrite list_elem_of_fmap. intros [[k v] [-> Hkv]].
  apply elem_of_map_to_list in Hkv. simpl in Hc. congruence.
Qed.

Lemma elem_of_keys (c : nat) (m : gmap nat bool) :
  c ∈ keys m -> is_Some (m !! c).
Proof.
  unfold keys. rewrite list_elem_of_fmap. intros [[k v] [-> Hkv]].
  apply elem_of_map_to_list in Hkv. simpl. eauto.
Qed.

Lemma string_app_cons (x : ascii) (a b : string) :
  String x a +:+ b = String x (a +:+ b).
Proof. reflexivity. Qed.

Lemma string_app_length (a b : string) :
  String.length (a +:+ b) = String.length a + String.length b.
Proof.
  induction a as [|x a IH]; [done |].
  rewrite string_app_cons. simpl. by rewrite IH.
Qed.

Lemma string_app_inj_r (a b s : string) : a +:+ s = b +:+ s -> a = b.
Proof.
  revert b. induction a as [|x a IH]; intros [|y b] Heq; [done | | |].
  - apply (f_equal String.length) in Heq.
    rewrite !string_app_length in Heq. simpl in Heq. lia.
  - apply (f_equal String.length) in Heq.
    rewrite !string_app_length in Heq. simpl in Heq. lia.
  - rewrite !string_app_cons in Heq. injection Heq as -> Heq.
    f_equal. by apply IH.
Qed.

Lemma frame_inj (a b : bytes) : frame a = frame b -> a = b.
Proof.
  unfold frame. intros Heq. apply (inj (String.app "data: ")) in Heq.
  by apply string_app_inj_r in Heq.
Qed.

Lemma lookup_set_phase (c' c : nat) (p : Phase) (cs : gmap nat Conn) :
  set_phase c' p cs !! c =
    if decide (c' = c) then (fun cn => mkConn p (stream cn)) <$> cs !! c
    else cs !! c.
Proof.
  unfold set_phase. case_decide as Hc.
  - subst c'. destruct (cs !! c) as [cn|] eqn:E; [| by rewrite E].
    by rewrite lookup_insert_eq.
  - destruct (cs !! c') as [cn|]; [| done]. by rewrite lookup_insert_ne.
Qed.

Lemma lookup_trySend (event : bytes) (c' c : nat) (cs : gmap nat Conn) :
  trySend event c' cs !! c =
    if decide (c' = c) then
      (fun cn => match phase cn with
                 | AtSelect => mkConn (Flushing event) (stream cn)
                 | _ => cn
                 end) <$> cs !! c
    else cs !! c.
Proof.
  unfold trySend. case_decide as Hc.
  - subst c'. destruct (cs !! c) as [[p out]|] eqn:E; [| by rewrite E].
    destruct p; rewrite ?lookup_insert_eq, ?E; done.
  - destruct (cs !! c') as [[p out]|]; [| done].
    destruct p; rewrite ?lookup_insert_ne; done.
Qed.

Ltac count_up :=
  unfold copies_conn; cbn; repeat case_decide; subst; try congruence; try lia.

(** A copy comes to a subscriber in one move only: the turn of the range
    loop that finds it waiting. *)
Lemma step_copies (l : Label) (s s' : System) (event : bytes) (c : nat) :
  step l s = Some s' ->
  copies event s' c =
    copies event s c +
    match l, listen s with
    | TrySend, Ranging e (c' :: _) =>
      if decide (e = event /\ c' = c /\ phase_of s c = Some AtSelect)
      then 1 else 0
    | _, _ => 0
    end.
Proof.
  unfold step, copies, phase_of.
  destruct l as [m|c'|c'|c'| | | | |c'|c'|c']; intros Hstep.
  - destruct (listen s); [ case_decide | | case_decide ]; simplify_eq/=; lia.
  - destruct (conns s !! c') eqn:E; simplify_eq/=.
    rewrite lookup_insert. case_decide; [subst; rewrite E |];
      destruct (listen s) as [| |? [|]]; count_up.
  - destruct (conns s !! c') as [[[] out]|] eqn:E; simplify_eq/=.
    destruct (at_select (listen s)) eqn:Hl; simplify_eq/=.
    rewrite lookup_set_phase. case_decide; [subst; rewrite E |];
      destruct (listen s) as [| |? [|]]; count_up.
  - destruct (conns s !! c') as [[[] out]|] eqn:E; simplify_eq/=.
    destruct (at_select (listen s)) eqn:Hl; simplify_eq/=.
    rewrite lookup_set_phase. case_decide; [subst; rewrite E |];
      destruct (listen s) as [| |? [|]]; count_up.
  - destruct (listen s), (Notifier (broker s)); simplify_eq/=; lia.
  - destruct (listen s), (Notifier (broker s)); simplify_eq/=; lia.
  - destruct (listen s) as [| |e [|c' todo]]; simplify_eq/=.
    rewrite lookup_trySend.
    destruct (decide (c' = c)) as [->|Hc].
    + destruct (conns s !! c) as [[p out]|] eqn:E; cbn.
      * destruct p; count_up; naive_solver.
      * count_up; naive_solver.
    + rewrite (decide_False (P := _ /\ c' = c /\ _)) by naive_solver. lia.
  - destruct (listen s) as [| |e [|]]; simplify_eq/=; lia.
  - destruct (conns s !! c') as [[[] out]|] eqn:E; simplify_eq/=.
    rewrite lookup_set_phase. case_decide; [subst; rewrite E |];
      destruct (listen s) as [| |? [|]]; count_up.
  - destruct (conns s !! c') as [[[] out]|] eqn:E; simplify_eq/=.
    rewrite lookup_insert. case_decide as Hc.
    + subst c'. rewrite E. unfold copies_conn; cbn.
      rewrite filter_app, length_app, filter_cons, filter_nil.
      destruct (listen s) as [| |? [|]];
        count_up; simpl; try lia;
        exfalso;
        match goal with H : frame _ = frame _ |- _ => apply frame_inj in H end;
        congruence.
    + destruct (listen s) as [| |? [|]]; lia.
  - destruct (conns s !! c') as [[[] out]|] eqn:E; simplify_eq/=.
    rewrite lookup_set_phase. case_decide; [subst; rewrite E |];
      destruct (listen s) as [| |? [|]]; count_up.
Qed.

Ltac tally :=
  rewrite ?occurrences_app, ?occurrences_cons, ?occurrences_nil;
  repeat case_decide; simplify_eq/=; try lia.

(** What a move can add to the copies still on their way: one publish of
    the event adds one, and the turn of the range loop that is owed to [c]
    takes one away, delivered or not. *)
Lemma step_pending (l : Label) (s s' : System) (event : bytes) (c : nat) :
  step l s = Some s' ->
  pending event c s' +
    match l, listen s with
    | TrySend, Ranging e (c' :: _) =>
      if decide (e = event /\ c' = c /\ phase_of s c = Some AtSelect)
      then 1 else 0
    | _, _ => 0
    end
  <= pending event c s + (if decide (l = Publish event) then 1 else 0).
Proof.
  unfold step, pending.
  destruct l as [m|c'|c'|c'| | | | |c'|c'|c']; intros Hstep.
  - pose proof (occurrences_keys c (clients (broker s))).
    destruct (listen s); [ case_decide | | case_decide ]; simplify_eq/=;
      tally.
  - destruct (conns s !! c'); simplify_eq/=. lia.
  - destruct (phase_of s c') as [[]|]; simplify_eq/=.
    destruct (listen s); simplify_eq/=; lia.
  - destruct (phase_of s c') as [[]|]; simplify_eq/=.
    destruct (listen s); simplify_eq/=; lia.
  - pose proof (occurrences_keys c (clients (broker s))).
    destruct (listen s), (Notifier (broker s)) as [|e rest]; simplify_eq/=.
    tally.
  - destruct (listen s), (Notifier (broker s)) eqn:En; simplify_eq/=.
    rewrite En. tally.
  - destruct (listen s) as [| |e [|c' todo]]; simplify_eq/=.
    tally; naive_solver.
  - destruct (listen s) as [| |e [|]]; simplify_eq/=. tally.
  - destruct (phase_of s c') as [[]|]; simplify_eq/=.
    destruct (listen s) as [| |? [|]]; tally.
  - destruct (conns s !! c') as [[[] out]|]; simplify_eq/=.
    destruct (listen s) as [| |? [|]]; tally.
  - destruct (phase_of s c') as [[]|]; simplify_eq/=.
    destruct (listen s) as [| |? [|]]; tally.
Qed.

Lemma step_potential (l : Label) (s s' : System) (event : bytes) (c : nat) :
  step l s = Some s' ->
  potential event c s' <=
    potential event c s + (if decide (l = Publish event) then 1 else 0).
Proof.
  intros Hstep. unfold potential.
  rewrite (step_copies _ _ _ event c Hstep).
  pose proof (step_pending _ _ _ event c Hstep). lia.
Qed.

Lemma run_app (tr1 tr2 : list Label) (s : System) :
  run (tr1 ++ tr2) s = run tr1 s ≫= run tr2.
Proof.
  revert s. induction tr1 as [|l tr1 IH]; intros s; [done |].
  simpl. destruct (step l s); [apply IH | done].
Qed.

Lemma run_potential (tr : list Label) (s s' : System) (event : bytes)
    (c : nat) :
  run tr s = Some s' ->
  potential event c s' <=
    potential event c s + occurrences (Publish event) tr.
Proof.
  revert s. induction tr as [|l tr IH]; intros s Hrun; simplify_eq/=.
  - rewrite occurrences_nil. lia.
  - destruct (step l s) as [s1|] eqn:Hstep; [| done].
    apply IH in Hrun. pose proof (step_potential _ _ _ event c Hstep).
    rewrite occurrences_cons. lia.
Qed.

Lemma potential_NewSystem (event : bytes) (c : nat) :
  potential event c NewSystem = 0.
Proof. reflexivity. Qed.

(** *** [listen] gets through the range loop on its own *)

Lemma range_completes (todo : list nat) (s : System) (event : bytes) :
  listen s = Ranging event todo ->
  exists s',
    run (replicate (length todo) TrySend ++ [EndRange]) s = Some s' /\
    listen s' = Select /\ broker s' = broker s.
Proof.
  revert s. induction todo as [|c todo IH]; intros s Hl.
  - eexists. simpl. rewrite Hl. done.
  - destruct (IH (mkSystem (broker s) (Ranging event todo)
                           (trySend event c (conns s)) (listenLog s)))
      as (s' & Hrun & Hsel & Hb); [done |].
    exists s'. split; [| done].
    simpl. rewrite Hl. exact Hrun.
Qed.

Lemma Forall_listen_range (n : nat) :
  Forall (fun l => listen_move l = true) (replicate n TrySend ++ [EndRange]).
Proof.
  apply Forall_app. split; [| by repeat constructor].
  induction n; by constructor.
Qed.

Lemma select_makes_room (s : System) :
  listen s = Select ->
  length (Notifier (broker s)) <= NotifierCap ->
  exists tr s',
    Forall (fun l => listen_move l = true) tr /\
    run tr s = Some s' /\
    listen s' = Select /\ Notifier (broker s') = [].
Proof.
  intros Hl Hcap. destruct (Notifier (broker s)) as [|e rest] eqn:HN.
  - exists [], s. by repeat split.
  - destruct rest; [| simpl in Hcap; unfold NotifierCap in Hcap; lia].
    set (s1 := mkSystem (mkBroker [] (clients (broker s)))
                        (Ranging e (keys (clients (broker s))))
                        (conns s) (listenLog s)).
    destruct (range_completes (keys (clients (broker s))) s1 e eq_refl)
      as (s' & Hrun & Hsel & Hb).
    exists (Take :: replicate (length (keys (clients (broker s)))) TrySend
              ++ [EndRange]), s'.
    split; [constructor; [done | apply Forall_listen_range] |].
    split; [| split; [done | by rewrite Hb]].
    simpl. rewrite Hl, HN. exact Hrun.
Qed.

Lemma step_Notifier_cap (l : Label) (s s' : System) :
  step l s = Some s' ->
  length (Notifier (broker s)) <= NotifierCap ->
  length (Notifier (broker s')) <= NotifierCap.
Proof.
  unfold step, NotifierCap. intros Hstep Hcap.
  destruct l as [m|c'|c'|c'| | | | |c'|c'|c'].
  - destruct (listen s); [ case_decide | | case_decide ]; simplify_eq/=;
      rewrite ?length_app; simpl; lia.
  - destruct (conns s !! c'); by simplify_eq/=.
  - destruct (phase_of s c') as [[]|], (at_select (listen s));
      by simplify_eq/=.
  - destruct (phase_of s c') as [[]|], (at_select (listen s));
      by simplify_eq/=.
  - destruct (listen s), (Notifier (broker s)); simplify_eq/=; lia.
  - destruct (listen s), (Notifier (broker s)) eqn:E; simplify_eq/=.
    rewrite E. simpl. lia.
  - destruct (listen s) as [| |? [|]]; by simplify_eq/=.
  - destruct (listen s) as [| |? [|]]; by simplify_eq/=.
  - destruct (phase_of s c') as [[]|]; by simplify_eq/=.
  - destruct (conns s !! c') as [[[] ?]|]; by simplify_eq/=.
  - destruct (phase_of s c') as [[]|]; by simplify_eq/=.
Qed.

Lemma run_Notifier_cap (tr : list Label) (s s' : System) :
  run tr s = Some s' ->
  length (Notifier (broker s)) <= NotifierCap ->
  length (Notifier (broker s')) <= NotifierCap.
Proof.
  revert s. induction tr as [|l tr IH]; intros s Hrun Hcap; simplify_eq/=.
  - done.
  - destruct (step l s) as [s1|] eqn:Hstep; [| done].
    eauto using step_Notifier_cap.
Qed.

Lemma publish_at_select (s : System) (jsonMsg : bytes) :
  listen s = Select -> Notifier (broker s) = [] ->
  is_Some (step (Publish jsonMsg) s).
Proof. intros Hl HN. unfold step. rewrite Hl, HN. simpl. eauto. Qed.

(** C7: in every state the broker can reach, moves of [listen] alone, none
    by any subscriber, bring it to where a handler's send on [Notifier] goes
    through; a turn of the range loop on a subscriber that is not waiting in
    its receive goes through too, changes nothing and moves on, so that copy
    is dropped; no subscriber holds more copies of an event than it was
    published times; a send on [Notifier] goes through at once exactly when
    [listen] sleeps in its select or the buffer is empty, whatever the
    subscribers do; and it leaves the subscribers and the client set as they
    are, and the handler's response is the one of the revision without a
    broker. *)
Theorem publish_never_waits_for_listener (tr0 : list Label) (s : System)
    (jsonMsg : bytes) :
  run tr0 NewSystem = Some s ->
  (exists tr s',
     Forall (fun l => listen_move l = true) tr /\
     run tr s = Some s' /\
     is_Some (step (Publish jsonMsg) s')) /\
  (forall event c todo,
     listen s = Ranging event (c :: todo) ->
     phase_of s c <> Some AtSelect ->
     step TrySend s =
       Some (mkSystem (broker s) (Ranging event todo) (conns s)
                      (listenLog s))) /\
  (forall event c, copies event s c <= occurrences (Publish event) tr0) /\
  (is_Some (step (Publish jsonMsg) s) <->
     listen s = Parked \/ Notifier (broker s) = []) /\
  (forall s', step (Publish jsonMsg) s = Some s' ->
     conns s' = conns s /\ clients (broker s') = clients (broker s)) /\
  (forall `{GoLib} r g,
     (serve Sse.updateHandler r g).2 = (serve Plain.updateHandler r g).2 /\
     (serve Sse.gpsHandler r g).2 = (serve Plain.gpsHandler r g).2).
Proof.
  intros Hreach.
  assert (length (Notifier (broker s)) <= NotifierCap) as Hcap.
  { eapply run_Notifier_cap; [exact Hreach |]. simpl. lia. }
  split; [| split; [| split; [| split; [| split]]]].
  - destruct (listen s) as [| |e todo] eqn:Hl.
    + destruct (select_makes_room s Hl Hcap) as (tr & s' & Hf & Hrun & ? & ?).
      exists tr, s'. eauto using publish_at_select.
    + exists [], s. split; [constructor | split; [done |]].
      unfold step. rewrite Hl. eauto.
    + destruct (range_completes todo s e Hl) as (s1 & Hrun1 & Hsel & Hb).
      rewrite <- Hb in Hcap.
      destruct (select_makes_room s1 Hsel Hcap)
        as (tr & s' & Hf & Hrun & ? & ?).
      exists ((replicate (length todo) TrySend ++ [EndRange]) ++ tr)%list, s'.
      split; [apply Forall_app; eauto using Forall_listen_range |].
      split; [| eauto using publish_at_select].
      rewrite run_app, Hrun1. exact Hrun.
  - intros event c todo Hl Hph. unfold step. rewrite Hl. do 2 f_equal.
    unfold trySend, phase_of in *.
    destruct (conns s !! c) as [[[] out]|]; done.
  - intros event c.
    pose proof (run_potential _ _ _ event c Hreach) as Hp.
    rewrite potential_NewSystem in Hp. unfold potential in Hp. lia.
  - unfold step, NotifierCap in *.
    destruct (listen s), (Notifier (broker s)) as [|e [|]]; simpl in *;
      try case_decide; try lia;
      (split; [intros [? ?]; try done; eauto | intros [?|?]; try done; eauto]).
  - intros s'. unfold step.
    destruct (listen s); [ case_decide | | case_decide ]; intros;
      by simplify_eq/=.
  - intros H r g.
    rewrite Sse_update_result, Plain_update_result, Sse_gps_result,
      Plain_gps_result. cbn zeta. split.
    + repeat case_decide; try done. by destruct (ParseBool _).
    + case_decide; try done.
      destruct (ParseFloat _); [| done]. by destruct (ParseFloat _).
Qed.

Lemma publish_never_waits_for_listener_witness :
  let tr0 := [Connect 0; Register 0; Enter 0; Publish "a"; Take; TrySend;
              EndRange; Publish "b"; Take] in
  exists s,
    run tr0 NewSystem = Some s /\
    listen s = Ranging "b" [0] /\
    phase_of s 0 = Some (Flushing "a") /\
    (exists tr s',
       Forall (fun l => listen_move l = true) tr /\
       run tr s = Some s' /\ is_Some (step (Publish "c") s')) /\
    step TrySend s =
      Some (mkSystem (broker s) (Ranging "b" []) (conns s) (listenLog s)).
Proof.
  intros tr0.
  destruct (run tr0 NewSystem) as [s|] eqn:Hrun;
    [| vm_compute in Hrun; discriminate].
  assert (Hl : listen s = Ranging "b" [0])
    by (vm_compute in Hrun; injection Hrun as <-; reflexivity).
  assert (Hph : phase_of s 0 = Some (Flushing "a"))
    by (vm_compute in Hrun; injection Hrun as <-; reflexivity).
  exists s. split; [reflexivity | split; [exact Hl | split; [exact Hph |]]].
  destruct (publish_never_waits_for_listener tr0 s "c" Hrun)
    as (Hroom & Hdrop & _).
  split; [exact Hroom |].
  apply (Hdrop "b" 0 []); [exact Hl |]. rewrite Hph. discriminate.
Defined.

(** C8 as worded fails in both halves.  A subscriber that is registered
    and busy writing the event before gets no copy of the next one; and a
    subscriber that registers while the event waits in [Notifier] gets it,
    although it registered after the publish. *)
Lemma delivery_claim_fails :
  ~ subscribed_before_gets_one /\ ~ subscribed_after_gets_none.
Proof.
  split.
  - intros Hclaim.
    set (pre := [Connect 0; Register 0; Enter 0; Publish "a"; Take; TrySend;
                 EndRange]).
    set (post := [Take; TrySend; EndRange; Flush 0]).
    destruct (run pre NewSystem) as [s1|] eqn:H1;
      [| vm_compute in H1; discriminate].
    destruct (step (Publish "b") s1) as [s2|] eqn:H2;
      [| vm_compute in H1; simplify_eq; vm_compute in H2; discriminate].
    destruct (run post s2) as [s3|] eqn:H3;
      [| vm_compute in H1; simplify_eq; vm_compute in H2; simplify_eq;
         vm_compute in H3; discriminate].
    pose proof (Hclaim pre post "b" 0 s1 s2 s3 H1 H2 H3 eq_refl) as Hone.
    assert (registered s1 0 /\ registered s3 0 /\
            Notifier (broker s3) = [] /\ at_select (listen s3) = true /\
            copies "b" s3 0 = 0) as (R1 & R3 & HN & Hl & Hzero).
    { vm_compute in H1; simplify_eq. vm_compute in H2; simplify_eq.
      vm_compute in H3; simplify_eq.
      split; [vm_compute; eauto |]. split; [vm_compute; eauto |].
      split; [reflexivity |]. split; reflexivity. }
    specialize (Hone R1 R3 HN Hl). rewrite Hzero in Hone. discriminate.
  - intros Hclaim.
    set (pre := [Connect 1; Register 1]).
    set (post := [Connect 0; Register 0; Enter 0; Take; TrySend; TrySend]).
    destruct (run pre NewSystem) as [s1|] eqn:H1;
      [| vm_compute in H1; discriminate].
    destruct (step (Publish "a") s1) as [s2|] eqn:H2;
      [| vm_compute in H1; simplify_eq; vm_compute in H2; discriminate].
    destruct (run post s2) as [s3|] eqn:H3;
      [| vm_compute in H1; simplify_eq; vm_compute in H2; simplify_eq;
         vm_compute in H3; discriminate].
    pose proof (Hclaim pre post "a" 0 s1 s2 s3 H1 H2 H3 eq_refl) as Hnone.
    assert (~ registered s1 0 /\ copies "a" s3 0 = 1) as (R1 & Hone).
    { vm_compute in H1; simplify_eq. vm_compute in H2; simplify_eq.
      vm_compute in H3; simplify_eq.
      split; [| reflexivity].
      intros [b Hb]. vm_compute in Hb. discriminate. }
    specialize (Hnone R1). rewrite Hone in Hnone. discriminate.
Qed.

(** *** The range loop of one event *)

Lemma copies_step_mono (l : Label) (s s' : System) (event : bytes) (c : nat) :
  step l s = Some s' -> copies event s c <= copies event s' c.
Proof. intros Hstep. rewrite (step_copies _ _ _ event c Hstep). lia. Qed.

Lemma copies_run_mono (tr : list Label) (s s' : System) (event : bytes)
    (c : nat) :
  run tr s = Some s' -> copies event s c <= copies event s' c.
Proof.
  revert s. induction tr as [|l tr IH]; intros s Hrun.
  - by injection Hrun as <-.
  - simpl in Hrun. destruct (step l s) as [s1|] eqn:Hstep; [| done].
    pose proof (copies_step_mono _ _ _ event c Hstep).
    pose proof (IH _ Hrun). lia.
Qed.

(** While [listen] is in the range loop, a move other than the loop's end
    leaves it there with the same event; a turn of the loop takes the head
    off the clients to visit, and no other move changes them. *)
Lemma ranging_step (l : Label) (s s' : System) (event : bytes)
    (todo : list nat) :
  listen s = Ranging event todo ->
  step l s = Some s' ->
  l <> EndRange ->
  (l = TrySend /\ exists c', todo = c' :: tail todo /\
                             listen s' = Ranging event (tail todo)) \/
  (l <> TrySend /\ listen s' = Ranging event todo).
Proof.
  intros Hl Hstep Hne. unfold step in Hstep. rewrite Hl in Hstep.
  destruct l as [m|c'|c'|c'| | | | |c'|c'|c']; try done.
  - case_decide; [| done]. injection Hstep as <-. by right.
  - destruct (conns s !! c'); [done |]. injection Hstep as <-. by right.
  - destruct (phase_of s c') as [[]|]; done.
  - destruct (phase_of s c') as [[]|]; done.
  - destruct todo as [|c' todo]; [done |]. injection Hstep as <-.
    left. split; [done |]. by exists c'.
  - destruct (phase_of s c') as [[]|]; try done.
    injection Hstep as <-. by right.
  - destruct (conns s !! c') as [[[] ?]|]; try done.
    injection Hstep as <-. by right.
  - destruct (phase_of s c') as [[]|]; try done.
    injection Hstep as <-. by right.
Qed.

Lemma ranging_run (tr : list Label) (s s' : System) (event : bytes)
    (todo : list nat) :
  listen s = Ranging event todo ->
  EndRange ∉ tr ->
  run tr s = Some s' ->
  exists todo', listen s' = Ranging event todo' /\ todo' `suffix_of` todo.
Proof.
  revert s todo. induction tr as [|l tr IH]; intros s todo Hl Hno Hrun.
  - injection Hrun as <-. by exists todo.
  - simpl in Hrun. destruct (step l s) as [s1|] eqn:Hstep; [| done].
    apply not_elem_of_cons in Hno as [Hne Hno].
    destruct (ranging_step _ _ _ _ _ Hl Hstep (not_eq_sym Hne))
      as [(_ & c' & Htodo & Hl1) | (_ & Hl1)].
    + destruct (IH _ _ Hl1 Hno Hrun) as (todo' & Hl' & Hsuf).
      exists todo'. split; [done |]. rewrite Htodo. by apply suffix_cons_r.
    + eauto.
Qed.

(** A subscriber the loop is not going to visit gets nothing while the loop
    lasts, whatever else happens meanwhile. *)
Lemma range_skips (tr : list Label) (s s' : System) (event x : bytes)
    (todo : list nat) (c : nat) :
  listen s = Ranging event todo ->
  c ∉ todo ->
  EndRange ∉ tr ->
  run tr s = Some s' ->
  copies x s' c = copies x s c.
Proof.
  revert s todo. induction tr as [|l tr IH]; intros s todo Hl Hc Hno Hrun.
  - by injection Hrun as <-.
  - simpl in Hrun. destruct (step l s) as [s1|] eqn:Hstep; [| done].
    apply not_elem_of_cons in Hno as [Hne Hno].
    assert (copies x s1 c = copies x s c) as <-.
    { rewrite (step_copies _ _ _ x c Hstep), Hl.
      destruct l, todo as [|c' todo]; try lia.
      apply not_elem_of_cons in Hc as [Hcc' _].
      rewrite decide_False by naive_solver. lia. }
    destruct (ranging_step _ _ _ _ _ Hl Hstep (not_eq_sym Hne))
      as [(_ & c' & Htodo & Hl1) | (_ & Hl1)].
    + apply (IH _ _ Hl1); [| done ..].
      rewrite Htodo in Hc. by apply not_elem_of_cons in Hc as [_ ?].
    + by apply (IH _ _ Hl1).
Qed.

(** The loop does visit each client it set out with before it ends. *)
Lemma range_turn (tr : list Label) (s s' : System) (event : bytes)
    (todo : list nat) (c : nat) :
  listen s = Ranging event todo ->
  c ∈ todo ->
  EndRange ∉ tr ->
  run tr s = Some s' ->
  listen s' = Ranging event [] ->
  exists m1 m2 sa,
    tr = (m1 ++ TrySend :: m2)%list /\ run m1 s = Some sa /\
    at_turn sa event c.
Proof.
  revert s todo.
  induction tr as [|l tr IH]; intros s todo Hl Hc Hno Hrun Hend.
  - injection Hrun as <-. rewrite Hl in Hend. injection Hend as ->.
    by apply elem_of_nil in Hc.
  - simpl in Hrun. destruct (step l s) as [s1|] eqn:Hstep; [| done].
    apply not_elem_of_cons in Hno as [Hne Hno].
    destruct (ranging_step _ _ _ _ _ Hl Hstep (not_eq_sym Hne))
      as [(-> & c' & Htodo & Hl1) | (_ & Hl1)].
    + destruct (decide (c' = c)) as [-> | Hcc'].
      * exists [], tr, s. split; [done |]. split; [done |].
        exists (tail todo). by rewrite Hl, Htodo at 1.
      * rewrite Htodo in Hc. apply elem_of_cons in Hc as [? | Hc];
          [congruence |].
        destruct (IH _ _ Hl1 Hc Hno Hrun Hend) as (m1 & m2 & sa & -> & Hm1 & Ht).
        exists (TrySend :: m1), m2, sa. split; [done |]. split; [| done].
        cbn [run]. by rewrite Hstep.
    + destruct (IH _ _ Hl1 Hc Hno Hrun Hend) as (m1 & m2 & sa & -> & Hm1 & Ht).
      exists (l :: m1), m2, sa. split; [done |]. split; [| done].
      cbn [run]. by rewrite Hstep.
Qed.

(** The turn of [c] is the one move of the loop that can give it a copy:
    it does when [c] waits then, and nothing before or after it in the loop
    changes what [c] has. *)
Lemma range_turn_copies (m1 m2 : list Label) (s sa s' : System)
    (event : bytes) (todo : list nat) (c : nat) :
  listen s = Ranging event todo ->
  NoDup todo ->
  EndRange ∉ (m1 ++ TrySend :: m2)%list ->
  run m1 s = Some sa ->
  at_turn sa event c ->
  run (m1 ++ TrySend :: m2) s = Some s' ->
  copies event s' c = copies event s c + waiting sa c.
Proof.
  intros Hl Hnd Hno Hm1 [todo' Hla] Hrun.
  rewrite not_elem_of_app, not_elem_of_cons in Hno.
  destruct Hno as (Hno1 & _ & Hno2).
  destruct (ranging_run _ _ _ _ _ Hl Hno1 Hm1) as (t & Hla' & Hsuf).
  rewrite Hla in Hla'. injection Hla' as <-.
  assert (NoDup (c :: todo')) as Hnd'.
  { destruct Hsuf as [k ->]. by apply NoDup_app in Hnd as (_ & _ & ?). }
  apply NoDup_cons in Hnd' as [Hc' _].
  rewrite run_app, Hm1 in Hrun.
  change (run (TrySend :: m2) sa = Some s') in Hrun. cbn [run] in Hrun.
  destruct (step TrySend sa) as [sb|] eqn:Hsb; [| done].
  assert (copies event sa c = copies event s c) as <-.
  { clear Hrun Hsb Hc' m2 Hno2. revert s todo Hl Hnd Hm1 Hsuf Hno1.
    induction m1 as [|l m1 IH]; intros s todo Hl Hnd Hm1 Hsuf Hno1.
    - by injection Hm1 as <-.
    - simpl in Hm1. destruct (step l s) as [s1|] eqn:Hstep; [| done].
      apply not_elem_of_cons in Hno1 as [Hne Hno1].
      destruct (ranging_step _ _ _ _ _ Hl Hstep (not_eq_sym Hne))
        as [(-> & c' & Htodo & Hl1) | (Hts & Hl1)].
      + destruct (ranging_run _ _ _ _ _ Hl1 Hno1 Hm1) as (t & Ht & Hsuf1).
        rewrite Hla in Ht. injection Ht as <-.
        rewrite Htodo in Hnd. apply NoDup_cons in Hnd as [Hc1 Hnd1].
        assert (c' <> c) as Hcc'.
        { intros ->. apply Hc1. destruct Hsuf1 as [k ->].
          rewrite elem_of_app, elem_of_cons. auto. }
        rewrite (IH _ _ Hl1 Hnd1 Hm1 Hsuf1 Hno1).
        rewrite (step_copies _ _ _ event c Hstep), Hl, Htodo.
        rewrite decide_False by naive_solver. lia.
      + rewrite (IH _ _ Hl1 Hnd Hm1 Hsuf Hno1).
        rewrite (step_copies _ _ _ event c Hstep), Hl.
        destruct l, todo; try done; lia. }
  assert (listen sb = Ranging event todo') as Hlb.
  { unfold step in Hsb. rewrite Hla in Hsb. by injection Hsb as <-. }
  rewrite (range_skips _ _ _ _ event _ _ Hlb Hc' Hno2 Hrun).
  rewrite (step_copies _ _ _ event c Hsb), Hla. unfold waiting.
  repeat case_decide; naive_solver.
Qed.

(** An event comes into [Notifier] by a publish of it only. *)
Lemma step_Notifier_occurrences (l : Label) (s s' : System) (event : bytes) :
  step l s = Some s' ->
  occurrences event (Notifier (broker s')) <=
    occurrences event (Notifier (broker s)) +
    (if decide (l = Publish event) then 1 else 0).
Proof.
  unfold step. intros Hstep.
  destruct l as [m|c'|c'|c'| | | | |c'|c'|c'];
    try rewrite (decide_False (P := _ = Publish event)) by done.
  - destruct (listen s); [ case_decide | | case_decide ]; try done;
      injection Hstep as <-; cbn [broker Notifier];
      rewrite ?occurrences_app, ?occurrences_cons, ?occurrences_nil;
      repeat case_decide; simplify_eq; lia.
  - destruct (conns s !! c'); simplify_eq/=; lia.
  - destruct (phase_of s c') as [[]|], (at_select (listen s));
      simplify_eq/=; lia.
  - destruct (phase_of s c') as [[]|], (at_select (listen s));
      simplify_eq/=; lia.
  - destruct (listen s), (Notifier (broker s)); simplify_eq/=;
      rewrite ?occurrences_cons; lia.
  - destruct (listen s), (Notifier (broker s)) eqn:E; simplify_eq/=.
    rewrite E, occurrences_nil. lia.
  - destruct (listen s) as [| |? [|]]; simplify_eq/=; lia.
  - destruct (listen s) as [| |? [|]]; simplify_eq/=; lia.
  - destruct (phase_of s c') as [[]|]; simplify_eq/=; lia.
  - destruct (conns s !! c') as [[[] ?]|]; simplify_eq/=; lia.
  - destruct (phase_of s c') as [[]|]; simplify_eq/=; lia.
Qed.

Lemma run_Notifier_occurrences (tr : list Label) (s s' : System)
    (event : bytes) :
  run tr s = Some s' ->
  occurrences event (Notifier (broker s')) <=
    occurrences event (Notifier (broker s)) + occurrences (Publish event) tr.
Proof.
  revert s. induction tr as [|l tr IH]; intros s Hrun; simplify_eq/=.
  - rewrite occurrences_nil. lia.
  - destruct (step l s) as [s1|] eqn:Hstep; [| done].
    apply IH in Hrun. pose proof (step_Notifier_occurrences _ _ _ event Hstep).
    rewrite occurrences_cons. lia.
Qed.

(** What taking an event does: the range loop starts on the clients of the
    moment, nobody has received anything yet, and the event is off
    [Notifier] if it was on it. *)
Lemma takes_step (l : Label) (s1 s2 : System) (event : bytes) :
  takes l s1 event ->
  step l s1 = Some s2 ->
  listen s2 = Ranging event (keys (clients (broker s1))) /\
  conns s2 = conns s1 /\
  occurrences event (Notifier (broker s2)) +
    (if decide (l = Publish event) then 0 else 1) =
  occurrences event (Notifier (broker s1)).
Proof.
  intros [(-> & rest & Hl & HN) | (-> & Hl)] Hstep;
    unfold step in Hstep; rewrite Hl in Hstep; [rewrite HN in Hstep |];
    simplify_eq/=.
  - rewrite HN, occurrences_cons, decide_True by done. split_and!; [done..|lia].
  - rewrite decide_True by done. split_and!; [done.. | lia].
Qed.

Lemma keys_registered (s : System) (c : nat) :
  c ∈ keys (clients (broker s)) <-> registered s c.
Proof.
  split; [apply elem_of_keys |]. intros [b Hb]. unfold keys.
  apply list_elem_of_fmap. exists (c, b). split; [done |].
  by apply elem_of_map_to_list.
Qed.

Lemma unregistered_not_owed (s : System) (c : nat) :
  ~ registered s c -> occurrences c (keys (clients (broker s))) = 0.
Proof.
  intros Hc. apply occurrences_keys_None.
  destruct (clients (broker s) !! c) eqn:E; [| done].
  destruct Hc. unfold registered. rewrite E. eauto.
Qed.

(** After [listen] has taken an event that was published once, a
    subscriber that was not in the client set then has no copy on its way. *)
Lemma taken_unregistered (l : Label) (s1 s2 : System) (event : bytes)
    (c : nat) :
  takes l s1 event ->
  step l s1 = Some s2 ->
  potential event c s1 + (if decide (l = Publish event) then 1 else 0) <= 1 ->
  ~ registered s1 c ->
  potential event c s2 = 0.
Proof.
  intros Htakes Hstep Hpot Hc.
  pose proof (unregistered_not_owed s1 c Hc) as Hkeys.
  unfold potential in *. rewrite (step_copies _ _ _ event c Hstep).
  unfold pending in *.
  destruct Htakes as [(-> & rest & Hl & HN) | (-> & Hl)];
    unfold step in Hstep; rewrite Hl in *; [rewrite HN in * |];
    simplify_eq/=.
  - rewrite occurrences_cons in Hpot. rewrite Hkeys.
    rewrite !decide_True in * by done. lia.
  - rewrite Hkeys. rewrite !decide_True in * by done. lia.
Qed.

(** The whole range loop of one event, from the take to the loop's end. *)
Lemma range_window (mid : list Label) (l : Label) (event : bytes)
    (s1 s2 s3 : System) :
  takes l s1 event ->
  step l s1 = Some s2 ->
  EndRange ∉ mid ->
  run (mid ++ [EndRange]) s2 = Some s3 ->
  exists s3',
    run mid s2 = Some s3' /\ listen s3' = Ranging event [] /\
    listen s3 = Select /\ broker s3 = broker s3' /\ conns s3 = conns s3'.
Proof.
  intros Htakes Hstep Hno Hrun.
  destruct (takes_step _ _ _ _ Htakes Hstep) as (Hl2 & _ & _).
  rewrite run_app in Hrun.
  destruct (run mid s2) as [s3'|] eqn:Hmid; [| done].
  change (run [EndRange] s3' = Some s3) in Hrun.
  destruct (ranging_run _ _ _ _ _ Hl2 Hno Hmid) as (todo' & Hl3 & _).
  unfold run, step in Hrun. rewrite Hl3 in Hrun.
  destruct todo'; [| done]. injection Hrun as <-. by exists s3'.
Qed.

(** C8, as the code has it.  [listen] takes [event] in the move from [s1]
    to [s2]; its range loop lasts through [mid], while other goroutines
    move too, and ends at [s3]; [post] is whatever follows.  A subscriber
    that is not in the client set at the take gets nothing from this loop.
    One that is in the client set is visited by the loop, and has at the
    loop's end one more copy than before if it waited in its receive at its
    turn, and what it had if it did not.  Afterwards it never loses a copy,
    and gains no more of them than [event] is still waiting in [Notifier]
    or is published again: a copy missed is not made up for.  So for an
    event published once, the subscriber holds in every later state one
    copy if it was in the client set and waiting at its turn, and none
    otherwise; and in no state at all after the take, the loop over or
    not, does it hold more than one copy, or any if it was not in the
    client set. *)
Theorem delivery_at_most_once (pre mid post : list Label) (l : Label)
    (event : bytes) (c : nat) (s1 s2 s3 s4 : System) :
  run pre NewSystem = Some s1 ->
  takes l s1 event ->
  step l s1 = Some s2 ->
  EndRange ∉ mid ->
  run (mid ++ [EndRange]) s2 = Some s3 ->
  run post s3 = Some s4 ->
  (~ registered s1 c -> copies event s3 c = copies event s1 c) /\
  (registered s1 c ->
     exists m1 m2 sa,
       mid = (m1 ++ TrySend :: m2)%list /\ run m1 s2 = Some sa /\
       at_turn sa event c) /\
  (forall m1 m2 sa,
     mid = (m1 ++ TrySend :: m2)%list -> run m1 s2 = Some sa ->
     at_turn sa event c ->
     copies event s3 c = copies event s1 c + waiting sa c) /\
  (copies event s3 c <= copies event s4 c /\
   copies event s4 c <=
     copies event s3 c + occurrences event (Notifier (broker s3)) +
     occurrences (Publish event) post) /\
  (occurrences (Publish event) (pre ++ l :: mid ++ EndRange :: post) = 1 ->
     (~ registered s1 c -> copies event s4 c = 0) /\
     (forall m1 m2 sa,
        mid = (m1 ++ TrySend :: m2)%list -> run m1 s2 = Some sa ->
        at_turn sa event c ->
        copies event s4 c = waiting sa c)) /\
  (forall tr s,
     run tr s2 = Some s ->
     occurrences (Publish event) (pre ++ l :: tr) = 1 ->
     copies event s c <= 1 /\
     (~ registered s1 c -> copies event s c = 0)).
Proof.
  intros Hpre Htakes Hstep Hno Hwin Hpost.
  destruct (takes_step _ _ _ _ Htakes Hstep) as (Hl2 & Hc2 & HN2).
  destruct (range_window _ _ _ _ _ _ Htakes Hstep Hno Hwin)
    as (s3' & Hmid & Hl3' & Hl3 & Hb3 & Hc3).
  assert (forall x, copies x s2 c = copies x s1 c) as E2
    by (intros x; unfold copies; by rewrite Hc2).
  assert (forall x, copies x s3 c = copies x s3' c) as E3
    by (intros x; unfold copies; by rewrite Hc3).
  assert (NoDup (keys (clients (broker s1)))) as Hnd
    by apply NoDup_fst_map_to_list.
  assert (~ registered s1 c -> copies event s3 c = copies event s1 c) as Hout.
  { intros Hc. rewrite E3, <- E2.
    apply (range_skips mid _ _ _ _ _ _ Hl2); [| done ..].
    by rewrite keys_registered. }
  assert (forall m1 m2 sa,
            mid = (m1 ++ TrySend :: m2)%list -> run m1 s2 = Some sa ->
            at_turn sa event c ->
            copies event s3 c = copies event s1 c + waiting sa c) as Hin.
  { intros m1 m2 sa -> Hm1 Hturn. rewrite E3, <- E2.
    by apply (range_turn_copies m1 m2 _ _ _ _ _ _ Hl2). }
  assert (copies event s4 c <=
            copies event s3 c + occurrences event (Notifier (broker s3)) +
            occurrences (Publish event) post) as Hlater.
  { pose proof (run_potential _ _ _ event c Hpost) as P.
    unfold potential, pending in P. rewrite Hl3 in P. lia. }
  split; [exact Hout |]. split; [| split; [exact Hin |]].
  { intros Hc. apply keys_registered in Hc.
    exact (range_turn _ _ _ _ _ _ Hl2 Hc Hno Hmid Hl3'). }
  split; [split; [exact (copies_run_mono _ _ _ _ _ Hpost) | exact Hlater] |].
  pose proof (run_potential _ _ _ event c Hpre) as P1.
  rewrite potential_NewSystem in P1.
  split; cycle 1.
  { intros tr s Hrun Honce.
    rewrite occurrences_app, occurrences_cons in Honce.
    pose proof (step_potential _ _ _ event c Hstep) as P2.
    pose proof (run_potential _ _ _ event c Hrun) as P3.
    split; [unfold potential in *; lia |].
    intros Hc.
    assert (potential event c s1 +
              (if decide (l = Publish event) then 1 else 0) <= 1) as Hle.
    { destruct Htakes as [(-> & rest & Hl & HN) | (-> & Hl)].
      - rewrite decide_False in * by done. lia.
      - rewrite decide_True in * by done. lia. }
    pose proof (taken_unregistered _ _ _ _ _ Htakes Hstep Hle Hc) as Hz.
    assert (occurrences (Publish event) tr = 0) as Htr0.
    { destruct Htakes as [(-> & rest & Hl & HN) | (-> & Hl)].
      - rewrite decide_False in * by done.
        assert (1 <= potential event c s1); [| lia].
        unfold potential, pending. rewrite HN, occurrences_cons.
        rewrite decide_True by done. lia.
      - rewrite decide_True in * by done. lia. }
    unfold potential in *. lia. }
  intros Honce.
  rewrite occurrences_app, occurrences_cons, occurrences_app,
    occurrences_cons in Honce.
  unfold potential, pending in P1.
  pose proof (run_Notifier_occurrences _ _ _ event Hwin) as N3.
  rewrite occurrences_app, !occurrences_cons, occurrences_nil in N3.
  rewrite !(decide_False (P := EndRange = _)) in * by done.
  assert (copies event s1 c = 0 /\
          occurrences event (Notifier (broker s3)) = 0 /\
          occurrences (Publish event) post = 0) as (Z1 & Z3 & Zp).
  { destruct (decide (l = Publish event)) as [-> | Hne]; [lia |].
    destruct Htakes as [(-> & rest & _ & HN) | (-> & _)]; [| done].
    rewrite HN, occurrences_cons, decide_True in * by done. lia. }
  pose proof (copies_run_mono _ _ _ event c Hpost) as Hmono.
  split.
  - intros Hc. specialize (Hout Hc). lia.
  - intros m1 m2 sa Hsplit Hm1 Hturn.
    specialize (Hin m1 m2 sa Hsplit Hm1 Hturn). lia.
Qed.

Lemma delivery_at_most_once_witness :
  let pre := [Connect 0; Register 0; Connect 1; Register 1; Enter 1;
              Publish "a"] in
  let mid := [TrySend; Connect 2; TrySend; Enter 0] in
  let post := [Flush 1; Register 2; Enter 2; Park] in
  exists s1 s2 sa s3 s4,
    run pre NewSystem = Some s1 /\
    takes Take s1 "a" /\
    step Take s1 = Some s2 /\
    (EndRange ∉ mid) /\
    run (mid ++ [EndRange]) s2 = Some s3 /\
    run post s3 = Some s4 /\
    occurrences (Publish "a") (pre ++ Take :: mid ++ EndRange :: post) = 1 /\
    registered s1 0 /\ registered s1 1 /\ ~ registered s1 2 /\
    at_turn s2 "a" 1 /\ waiting s2 1 = 1 /\
    run [TrySend; Connect 2] s2 = Some sa /\
    at_turn sa "a" 0 /\ waiting sa 0 = 0 /\
    copies "a" s4 1 = 1 /\ copies "a" s4 0 = 0 /\ copies "a" s4 2 = 0.
Proof.
  intros pre mid post.
  destruct (run pre NewSystem) as [s1|] eqn:H1;
    [| vm_compute in H1; discriminate].
  destruct (step Take s1) as [s2|] eqn:H2;
    [| vm_compute in H1; simplify_eq; vm_compute in H2; discriminate].
  destruct (run [TrySend; Connect 2] s2) as [sa|] eqn:Ha;
    [| vm_compute in H1; simplify_eq; vm_compute in H2; simplify_eq;
       vm_compute in Ha; discriminate].
  destruct (run (mid ++ [EndRange]) s2) as [s3|] eqn:H3;
    [| vm_compute in H1; simplify_eq; vm_compute in H2; simplify_eq;
       vm_compute in H3; discriminate].
  destruct (run post s3) as [s4|] eqn:H4;
    [| vm_compute in H1; simplify_eq; vm_compute in H2; simplify_eq;
       vm_compute in H3; simplify_eq; vm_compute in H4; discriminate].
  assert (Hno : EndRange ∉ mid).
  { unfold mid. rewrite !not_elem_of_cons. split_and!; try done.
    apply not_elem_of_nil. }
  assert (Hs1 : takes Take s1 "a" /\ registered s1 0 /\ registered s1 1 /\
                ~ registered s1 2).
  { vm_compute in H1. injection H1 as <-. split_and!.
    - left. split; [reflexivity |]. exists []. split; reflexivity.
    - vm_compute. eauto.
    - vm_compute. eauto.
    - intros [b Hb]. vm_compute in Hb. discriminate. }
  destruct Hs1 as (Htakes & R0 & R1 & R2).
  assert (Hs2 : at_turn s2 "a" 1 /\ waiting s2 1 = 1 /\
                at_turn sa "a" 0 /\ waiting sa 0 = 0).
  { vm_compute in H1. injection H1 as <-.
    vm_compute in H2. injection H2 as <-.
    vm_compute in Ha. injection Ha as <-. split_and!.
    - exists [0]. reflexivity.
    - reflexivity.
    - exists []. reflexivity.
    - reflexivity. }
  destruct Hs2 as (T1 & W1 & T0 & W0).
  exists s1, s2, sa, s3, s4.
  pose proof (delivery_at_most_once pre mid post Take "a" 0 s1 s2 s3 s4
                H1 Htakes H2 Hno H3 H4) as (_ & _ & _ & _ & Hend0 & _).
  pose proof (delivery_at_most_once pre mid post Take "a" 1 s1 s2 s3 s4
                H1 Htakes H2 Hno H3 H4) as (_ & _ & _ & _ & Hend1 & _).
  pose proof (delivery_at_most_once pre mid post Take "a" 2 s1 s2 s3 s4
                H1 Htakes H2 Hno H3 H4) as (_ & _ & _ & _ & Hend2 & _).
  destruct (Hend0 eq_refl) as (_ & Hin0).
  destruct (Hend1 eq_refl) as (_ & Hin1).
  destruct (Hend2 eq_refl) as (Hout2 & _).
  split; [reflexivity |]. split; [exact Htakes |]. split; [exact H2 |].
  split; [exact Hno |]. split; [exact H3 |]. split; [exact H4 |].
  split; [reflexivity |]. split; [exact R0 |]. split; [exact R1 |].
  split; [exact R2 |]. split; [exact T1 |]. split; [exact W1 |].
  split; [exact Ha |]. split; [exact T0 |]. split; [exact W0 |].
  split; [| split].
  - exact (eq_trans (Hin1 [] [Connect 2; TrySend; Enter 0] s2
                              eq_refl eq_refl T1) W1).
  - exact (eq_trans (Hin0 [TrySend; Connect 2] [Enter 0] sa eq_refl Ha T0)
                    W0).
  - exact (Hout2 R2).
Defined.

(** ** More on the handlers *)

(** X1: [gpsHandler] checks in this order: an empty or absent [id] is
    answered with the rejection for [id], whatever [lat] and [lon] are;
    then a [lat] that does not parse with the one for [lat]; then a [lon]
    that does not parse with the one for [lon], an [InvalidNumber]; and the
    request is accepted in the one case left. *)
Theorem location_failures `{GoLib} (r : Request) (g : World) :
  let id := Get (URL_Query r) "id" in
  let latStr := Get (URL_Query r) "lat" in
  let lonStr := Get (URL_Query r) "lon" in
  both_revisions (fun _ gpsHandler =>
    let resp := (serve gpsHandler r g).2 in
    (URL_Query r !! "id" = None -> resp = rejection "Missing id param") /\
    (id = "" ->
       resp = rejection "Missing id param" /\
       error_of resp = Some MissingField) /\
    (id <> "" -> ParseFloat latStr = None ->
       resp = rejection "Invalid lat param") /\
    (id <> "" -> is_Some (ParseFloat latStr) ->
       lonStr = "" \/ ParseFloat lonStr = None ->
       resp = rejection "Invalid lon param" /\
       error_of resp = Some InvalidNumber /\
       (serve gpsHandler r g).1 = g) /\
    (id <> "" -> is_Some (ParseFloat latStr) -> is_Some (ParseFloat lonStr) ->
       succeeds resp) /\
    (succeeds resp \/ is_Some (error_of resp))).
Proof.
  intros id latStr lonStr.
  assert (URL_Query r !! "id" = None -> id = "") as Habsent.
  { intros Hnone. unfold id, Get. by rewrite Hnone. }
  in_both; fold id latStr lonStr;
    (destruct (decide (id = "")) as [Hid|Hid];
     [| destruct (ParseFloat latStr) as [lat|] eqn:Hlat;
        [ destruct (ParseFloat lonStr) as [lon|] eqn:Hlon |] ]; cbn;
     (split; [intros Ha; try done; by destruct (Hid (Habsent Ha)) |]);
     (split; [intros; try done |]);
     (split; [intros; try done; by exfalso |]);
     (split; [intros ? ? [Hl|Hl]; try done;
              try (rewrite Hl, ParseFloat_empty in Hlon; done) |]);
     (split; [intros ? Hs1 Hs2; try done;
              try (by destruct Hs1); try (by destruct Hs2) |]);
     try (by left); try (by right; eexists)).
Qed.

Lemma location_failures_witness :
  let r := query [("id", "dev-3"); ("lat", "1.5"); ("lon", "east")] in
  Get (URL_Query r) "id" <> "" /\
  is_Some (GoRuntime.ParseFloat_decimal (Get (URL_Query r) "lat")) /\
  GoRuntime.ParseFloat_decimal (Get (URL_Query r) "lon") = None /\
  serve Sse.gpsHandler r seen_before
    = (seen_before, rejection "Invalid lon param").
Proof.
  intros r.
  assert (Hid : Get (URL_Query r) "id" <> "") by (vm_compute; discriminate).
  assert (Hlat : is_Some (GoRuntime.ParseFloat_decimal
                            (Get (URL_Query r) "lat")))
    by (vm_compute; eauto).
  assert (Hlon : GoRuntime.ParseFloat_decimal (Get (URL_Query r) "lon") = None)
    by reflexivity.
  split; [exact Hid | split; [exact Hlat | split; [exact Hlon |]]].
  destruct (proj2 (location_failures r seen_before))
    as (_ & _ & _ & Hcase & _).
  destruct (Hcase Hid Hlat (or_intror Hlon)) as (Hresp & _ & Hworld).
  apply injective_projections; [exact Hworld | exact Hresp].
Defined.

(** X2: the texts of [updateHandler]'s rejections, by the first check that
    fails: status 400 and [Missing id param] for an empty or absent [id],
    also when the value is missing or wrong too; [Missing value param] for
    an empty or absent [value]; [Invalid boolean value] for one that does
    not parse; each followed by a newline, and nothing else is written. *)
Theorem attendance_rejections `{GoLib} (r : Request) (g : World) :
  let id := Get (URL_Query r) "id" in
  let val := Get (URL_Query r) "value" in
  both_revisions (fun updateHandler _ =>
    let resp := (serve updateHandler r g).2 in
    (URL_Query r !! "id" = None \/ id = "" ->
       resp = rejection "Missing id param") /\
    (id <> "" -> URL_Query r !! "value" = None \/ val = "" ->
       resp = rejection "Missing value param") /\
    (id <> "" -> val <> "" -> ParseBool val = None ->
       resp = rejection "Invalid boolean value") /\
    (status resp = Some StatusBadRequest <-> ~ succeeds resp)).
Proof.
  intros id val.
  assert (forall key, URL_Query r !! key = None \/ Get (URL_Query r) key = ""
                      -> Get (URL_Query r) key = "") as Habsent.
  { intros key [Hnone | ?]; [| done]. unfold Get. by rewrite Hnone. }
  in_both; fold id val;
    (destruct (decide (id = "")) as [Hid|Hid];
     [| destruct (decide (val = "")) as [Hval|Hval];
        [| destruct (ParseBool val) as [b|] eqn:Hb ]]; cbn;
     (split; [intros Ha%Habsent; done |]);
     (split; [intros ? Ha%Habsent; done |]);
     (split; [intros; done |]);
     unfold succeeds; cbn; split; try done; naive_solver).
Qed.

Lemma attendance_rejections_witness :
  let r := query [("value", "maybe")] in
  URL_Query r !! "id" = None /\
  (serve Sse.updateHandler r seen_before).2 = rejection "Missing id param".
Proof.
  intros r.
  assert (Hid : URL_Query r !! "id" = None) by reflexivity.
  split; [exact Hid |].
  exact (proj1 (proj2 (attendance_rejections r seen_before)) (or_introl Hid)).
Defined.

(** X3: of two accepted requests for the same [id], one after the other,
    only the second counts: the map is the one before both with [id] set
    by the second. *)
Theorem later_write_wins `{GoLib} (r1 r2 : Request) (g : World) :
  let id := Get (URL_Query r1) "id" in
  id <> "" ->
  Get (URL_Query r2) "id" = id ->
  both_revisions (fun updateHandler gpsHandler =>
    (forall v1 v2,
       ParseBool (Get (URL_Query r1) "value") = Some v1 ->
       ParseBool (Get (URL_Query r2) "value") = Some v2 ->
       devices (serve updateHandler r2 (serve updateHandler r1 g).1).1 =
         <[id := v2]> (devices g)) /\
    (forall lat1 lon1 lat2 lon2,
       ParseFloat (Get (URL_Query r1) "lat") = Some lat1 ->
       ParseFloat (Get (URL_Query r1) "lon") = Some lon1 ->
       ParseFloat (Get (URL_Query r2) "lat") = Some lat2 ->
       ParseFloat (Get (URL_Query r2) "lon") = Some lon2 ->
       gpsLocations (serve gpsHandler r2 (serve gpsHandler r1 g).1).1 =
         <[id := {| ID := id; Lat := lat2; Lon := lon2 |}]>
           (gpsLocations g))).
Proof.
  intros id Hid Hsame.
  split; cbn beta; (split; [intros v1 v2 Hv1 Hv2
                            | intros lat1 lon1 lat2 lon2 Hlat1 Hlon1 Hlat2 Hlon2]).
  - pose proof (parsed_bool_nonempty _ _ Hv1).
    pose proof (parsed_bool_nonempty _ _ Hv2).
    rewrite (Plain_update_result r2), (Plain_update_result r1). cbn zeta.
    fold id. rewrite Hsame, !decide_False by done. rewrite Hv1, Hv2. cbn.
    apply insert_insert_eq.
  - rewrite (Plain_gps_result r2), (Plain_gps_result r1). cbn zeta.
    fold id. rewrite Hsame, !decide_False by done.
    rewrite Hlat1, Hlon1, Hlat2, Hlon2. cbn. apply insert_insert_eq.
  - pose proof (parsed_bool_nonempty _ _ Hv1).
    pose proof (parsed_bool_nonempty _ _ Hv2).
    rewrite (Sse_update_result r2), (Sse_update_result r1). cbn zeta.
    fold id. rewrite Hsame, !decide_False by done. rewrite Hv1, Hv2. cbn.
    apply insert_insert_eq.
  - rewrite (Sse_gps_result r2), (Sse_gps_result r1). cbn zeta.
    fold id. rewrite Hsame, !decide_False by done.
    rewrite Hlat1, Hlon1, Hlat2, Hlon2. cbn. apply insert_insert_eq.
Qed.

Lemma later_write_wins_witness :
  let r1 := query [("id", "dev-1"); ("value", "true")] in
  let r2 := query [("id", "dev-1"); ("value", "0")] in
  Get (URL_Query r1) "id" <> "" /\
  Get (URL_Query r2) "id" = Get (URL_Query r1) "id" /\
  devices (serve Sse.updateHandler r2
             (serve Sse.updateHandler r1 initial).1).1 =
    <[Get (URL_Query r1) "id" := false]> (devices initial).
Proof.
  intros r1 r2.
  assert (Hid : Get (URL_Query r1) "id" <> "") by (vm_compute; discriminate).
  assert (Hsame : Get (URL_Query r2) "id" = Get (URL_Query r1) "id")
    by reflexivity.
  split; [exact Hid | split; [exact Hsame |]].
  exact (proj1 (proj2 (later_write_wins r1 r2 initial Hid Hsame))
           true false eq_refl eq_refl).
Defined.

(** X4: two requests to the same handler with different [id]s can be served
    in either order: the map is the same in the end, whether each of them
    is accepted or rejected. *)
Theorem different_ids_commute `{GoLib} (r1 r2 : Request) (g : World) :
  Get (URL_Query r1) "id" <> Get (URL_Query r2) "id" ->
  both_revisions (fun updateHandler gpsHandler =>
    devices (serve updateHandler r2 (serve updateHandler r1 g).1).1 =
      devices (serve updateHandler r1 (serve updateHandler r2 g).1).1 /\
    gpsLocations (serve gpsHandler r2 (serve gpsHandler r1 g).1).1 =
      gpsLocations (serve gpsHandler r1 (serve gpsHandler r2 g).1).1).
Proof.
  intros Hne.
  split; cbn beta; split.
  - rewrite (Plain_update_result r2), (Plain_update_result r1 (_ _).1),
      (Plain_update_result r1), (Plain_update_result r2). cbn zeta.
    repeat case_decide; try done;
      destruct (ParseBool (Get (URL_Query r1) "value"));
      destruct (ParseBool (Get (URL_Query r2) "value")); cbn; try done.
    by apply insert_insert_ne.
  - rewrite (Plain_gps_result r2), (Plain_gps_result r1 (_ _).1),
      (Plain_gps_result r1), (Plain_gps_result r2). cbn zeta.
    repeat case_decide; try done;
      destruct (ParseFloat (Get (URL_Query r1) "lat"));
      destruct (ParseFloat (Get (URL_Query r1) "lon"));
      destruct (ParseFloat (Get (URL_Query r2) "lat"));
      destruct (ParseFloat (Get (URL_Query r2) "lon")); cbn; try done.
    by apply insert_insert_ne.
  - rewrite (Sse_update_result r2), (Sse_update_result r1 (_ _).1),
      (Sse_update_result r1), (Sse_update_result r2). cbn zeta.
    repeat case_decide; try done;
      destruct (ParseBool (Get (URL_Query r1) "value"));
      destruct (ParseBool (Get (URL_Query r2) "value")); cbn; try done.
    by apply insert_insert_ne.
  - rewrite (Sse_gps_result r2), (Sse_gps_result r1 (_ _).1),
      (Sse_gps_result r1), (Sse_gps_result r2). cbn zeta.
    repeat case_decide; try done;
      destruct (ParseFloat (Get (URL_Query r1) "lat"));
      destruct (ParseFloat (Get (URL_Query r1) "lon"));
      destruct (ParseFloat (Get (URL_Query r2) "lat"));
      destruct (ParseFloat (Get (URL_Query r2) "lon")); cbn; try done.
    by apply insert_insert_ne.
Qed.

Lemma different_ids_commute_witness :
  let r1 := query [("id", "dev-1"); ("value", "true")] in
  let r2 := query [("id", "dev-2"); ("value", "nope")] in
  Get (URL_Query r1) "id" <> Get (URL_Query r2) "id" /\
  devices (serve Sse.updateHandler r2
             (serve Sse.updateHandler r1 seen_before).1).1 =
    devices (serve Sse.updateHandler r1
               (serve Sse.updateHandler r2 seen_before).1).1.
Proof.
  intros r1 r2.
  assert (Hne : Get (URL_Query r1) "id" <> Get (URL_Query r2) "id")
    by (vm_compute; discriminate).
  split; [exact Hne |].
  exact (proj1 (proj2 (different_ids_commute r1 r2 seen_before Hne))).
Defined.

(** X5: a request to [updateHandler] and a request to [gpsHandler] can be
    served in either order: both maps are the same in the end. *)
Theorem handlers_commute `{GoLib} (r1 r2 : Request) (g : World) :
  both_revisions (fun updateHandler gpsHandler =>
    let g12 := (serve gpsHandler r2 (serve updateHandler r1 g).1).1 in
    let g21 := (serve updateHandler r1 (serve gpsHandler r2 g).1).1 in
    devices g12 = devices g21 /\ gpsLocations g12 = gpsLocations g21).
Proof.
  split; cbn beta zeta.
  - rewrite (Plain_gps_result r2), (Plain_update_result r1 (_ _).1),
      (Plain_update_result r1), (Plain_gps_result r2). cbn zeta.
    repeat case_decide; try done;
      destruct (ParseBool (Get (URL_Query r1) "value"));
      destruct (ParseFloat (Get (URL_Query r2) "lat"));
      destruct (ParseFloat (Get (URL_Query r2) "lon")); done.
  - rewrite (Sse_gps_result r2), (Sse_update_result r1 (_ _).1),
      (Sse_update_result r1), (Sse_gps_result r2). cbn zeta.
    repeat case_decide; try done;
      destruct (ParseBool (Get (URL_Query r1) "value"));
      destruct (ParseFloat (Get (URL_Query r2) "lat"));
      destruct (ParseFloat (Get (URL_Query r2) "lon")); done.
Qed.

Lemma serve_keeps_no_empty_key `{GoLib} (r : Request) (g : World) :
  devices g !! "" = None /\ gpsLocations g !! "" = None ->
  both_revisions (fun updateHandler gpsHandler =>
    (devices (serve updateHandler r g).1 !! "" = None /\
     gpsLocations (serve updateHandler r g).1 !! "" = None) /\
    (devices (serve gpsHandler r g).1 !! "" = None /\
     gpsLocations (serve gpsHandler r g).1 !! "" = None)).
Proof.
  intros [Hd Hg].
  in_both;
    (split;
     [ repeat case_decide; try done;
       destruct (ParseBool _); [| done]; cbn;
       by rewrite lookup_insert_ne
     | case_decide; try done;
       destruct (ParseFloat _); [| done];
       destruct (ParseFloat _); [| done]; cbn;
       by rewrite lookup_insert_ne ]).
Qed.

(** X6: in every state the server can reach, neither map has an entry
    under the empty id. *)
Theorem no_entry_for_empty_id `{GoLib} (g : World) :
  both_revisions (fun updateHandler gpsHandler =>
    reachable updateHandler gpsHandler g ->
    devices g !! "" = None /\ gpsLocations g !! "" = None).
Proof.
  split; cbn beta; intros Hreach.
  - induction Hreach as [| r g _ IH | r g _ IH]; [done | |].
    + destruct (serve_keeps_no_empty_key r g IH) as [[Hu _] _]. exact Hu.
    + destruct (serve_keeps_no_empty_key r g IH) as [[_ Hg] _]. exact Hg.
  - induction Hreach as [| r g _ IH | r g _ IH]; [done | |].
    + destruct (serve_keeps_no_empty_key r g IH) as [_ [Hu _]]. exact Hu.
    + destruct (serve_keeps_no_empty_key r g IH) as [_ [_ Hg]]. exact Hg.
Qed.

Lemma no_entry_for_empty_id_witness :
  let g := (serve Sse.updateHandler (query [("value", "true")])
              (serve Sse.gpsHandler
                 (query [("id", "dev-2"); ("lat", "1"); ("lon", "2")])
                 initial).1).1 in
  reachable Sse.updateHandler Sse.gpsHandler g /\
  devices g !! "" = None /\ gpsLocations g !! "" = None.
Proof.
  intros g.
  assert (Hreach : reachable Sse.updateHandler Sse.gpsHandler g)
    by (apply reachable_update, reachable_gps, reachable_initial).
  split; [exact Hreach |].
  exact (proj2 (no_entry_for_empty_id g) Hreach).
Defined.

Lemma revisions_agree_step `{GoLib} (c : Call) (g g' : World) :
  devices g = devices g' -> gpsLocations g = gpsLocations g' ->
  devices (serve_call Plain.updateHandler Plain.gpsHandler c g) =
    devices (serve_call Sse.updateHandler Sse.gpsHandler c g') /\
  gpsLocations (serve_call Plain.updateHandler Plain.gpsHandler c g) =
    gpsLocations (serve_call Sse.updateHandler Sse.gpsHandler c g').
Proof.
  intros Hd Hg. destruct c as [r|r]; unfold serve_call.
  - rewrite Plain_update_result, Sse_update_result. cbn zeta.
    repeat case_decide; try done.
    destruct (ParseBool _); cbn; [by rewrite Hd | done].
  - rewrite Plain_gps_result, Sse_gps_result. cbn zeta.
    case_decide; try done.
    destruct (ParseFloat _); [| done].
    destruct (ParseFloat _); cbn; [by rewrite Hg | done].
Qed.

(** X7: the two revisions keep the same maps: after any history of
    requests, served from the empty maps, [devices] and [gpsLocations] of
    the revision with the broker are those of the revision without. *)
Theorem revisions_keep_same_maps `{GoLib} (cs : list Call) :
  let g1 := serve_calls Plain.updateHandler Plain.gpsHandler cs initial in
  let g2 := serve_calls Sse.updateHandler Sse.gpsHandler cs initial in
  devices g1 = devices g2 /\ gpsLocations g1 = gpsLocations g2.
Proof.
  cbn zeta. unfold serve_calls.
  assert (forall g g', devices g = devices g' ->
            gpsLocations g = gpsLocations g' ->
            devices (foldl (fun g c => serve_call Plain.updateHandler
                                         Plain.gpsHandler c g) g cs) =
              devices (foldl (fun g c => serve_call Sse.updateHandler
                                           Sse.gpsHandler c g) g' cs) /\
            gpsLocations
              (foldl (fun g c => serve_call Plain.updateHandler
                                   Plain.gpsHandler c g) g cs) =
              gpsLocations
                (foldl (fun g c => serve_call Sse.updateHandler
                                     Sse.gpsHandler c g) g' cs)) as Hgen.
  { induction cs as [|c cs IH]; intros g g' Hd Hg; [done |].
    simpl. destruct (revisions_agree_step c g g' Hd Hg). by apply IH. }
  by apply Hgen.
Qed.

(** X8: what one call logs and sends, the call taken on its own (how the
    lines and the events of calls served at the same time fall among each
    other is not stated here).  In the revision with the broker an accepted
    request adds one line to the log and sends one event on [Notifier]: the
    JSON of an [SSEMessage] whose message is that very line and whose type
    is [update] for [updateHandler] and [gps] for [gpsHandler].  A rejected
    request logs nothing and sends nothing, in both revisions.  The
    revision without the broker never sends. *)
Theorem accepted_call_announced `{GoLib} (r : Request) (g : World) :
  (succeeds (serve Sse.updateHandler r g).2 ->
   announces Sse.updateHandler "update" r g) /\
  (succeeds (serve Sse.gpsHandler r g).2 ->
   announces Sse.gpsHandler "gps" r g) /\
  both_revisions (fun updateHandler gpsHandler =>
    (~ succeeds (serve updateHandler r g).2 -> quiet updateHandler r g) /\
    (~ succeeds (serve gpsHandler r g).2 -> quiet gpsHandler r g)) /\
  notified (serve Plain.updateHandler r g).1 = notified g /\
  notified (serve Plain.gpsHandler r g).1 = notified g.
Proof.
  assert (forall msg, ~ succeeds (rejection msg)) as Hrej
    by (intros msg [? _]; done).
  assert (forall b, succeeds {| status := Some StatusOK; body := b |}) as Hok
    by (intros b; split; done).
  unfold both_revisions, announces, quiet.
  rewrite Sse_update_result, Plain_update_result, Sse_gps_result,
    Plain_gps_result. cbn zeta.
  split_and!.
  - repeat case_decide; cbn; try (intros Hs; by apply Hrej in Hs).
    destruct (ParseBool _); cbn; [eauto | intros Hs; by apply Hrej in Hs].
  - case_decide; cbn; try (intros Hs; by apply Hrej in Hs).
    destruct (ParseFloat _); cbn; [| intros Hs; by apply Hrej in Hs].
    destruct (ParseFloat _); cbn; [eauto | intros Hs; by apply Hrej in Hs].
  - repeat case_decide; try done.
    destruct (ParseBool _); [| done]. intros Hs. destruct Hs. apply Hok.
  - case_decide; try done.
    destruct (ParseFloat _); [| done]. destruct (ParseFloat _); [| done].
    intros Hs. destruct Hs. apply Hok.
  - repeat case_decide; try done.
    destruct (ParseBool _); [| done]. intros Hs. destruct Hs. apply Hok.
  - case_decide; try done.
    destruct (ParseFloat _); [| done]. destruct (ParseFloat _); [| done].
    intros Hs. destruct Hs. apply Hok.
  - repeat case_decide; try done. by destruct (ParseBool _).
  - case_decide; try done.
    destruct (ParseFloat _); [| done]. by destruct (ParseFloat _).
Qed.

Lemma accepted_call_announced_witness :
  let r := query [("id", "dev-1"); ("value", "true")] in
  let r' := query [("id", "dev-2"); ("lat", "1.5"); ("lon", "x")] in
  let g := (serve Sse.updateHandler r initial).1 in
  succeeds (serve Sse.updateHandler r initial).2 /\
  ~ succeeds (serve Sse.gpsHandler r' g).2 /\
  logged g = ["Attendance registered for dev-1"] /\
  notified g =
    [json_Marshal {| Type_ := "update";
                     Message := "Attendance registered for dev-1" |}] /\
  announces Sse.updateHandler "update" r initial /\
  quiet Sse.gpsHandler r' g.
Proof.
  intros r r' g.
  assert (Hs : succeeds (serve Sse.updateHandler r initial).2)
    by (split; reflexivity).
  assert (Hn : ~ succeeds (serve Sse.gpsHandler r' g).2)
    by (intros [Hst _]; vm_compute in Hst; discriminate).
  destruct (accepted_call_announced r initial) as (Hup & _).
  destruct (accepted_call_announced r' g) as (_ & _ & (_ & _ & Hq) & _).
  split; [exact Hs |]. split; [exact Hn |].
  split; [reflexivity |]. split; [reflexivity |].
  split; [exact (Hup Hs) | exact (Hq Hn)].
Defined.

(** ** More on the broker *)

Lemma received_phase (p : Phase) (out : list string) :
  (forall msg, p <> Flushing msg) -> received (mkConn p out) = out.
Proof.
  intros Hp. unfold received. simpl.
  destruct p; rewrite ?app_nil_r; try done. by destruct (Hp msg).
Qed.

Lemma received_set_phase (c' c : nat) (p : Phase) (cs : gmap nat Conn)
    (cn' : Conn) (L : list string) :
  (forall msg, p <> Flushing msg) ->
  (forall cn, cs !! c = Some cn -> sublist (received cn) L) ->
  set_phase c' p cs !! c = Some cn' ->
  sublist (received cn') L.
Proof.
  intros Hp Hcs. rewrite lookup_set_phase. case_decide; [| by apply Hcs].
  destruct (cs !! c) as [cn|] eqn:E; [| done]. intros [= <-].
  rewrite received_phase by done.
  etrans; [| by apply Hcs]. unfold received. by apply sublist_inserts_r.
Qed.

Lemma in_order_step (l : Label) (s s' : System) (past P : list bytes) :
  in_order past P s ->
  step l s = Some s' ->
  exists past', in_order past' (P ++ published [l])%list s'.
Proof.
  intros (HP & Hpark & Hnodup & Hrecv) Hstep.
  unfold step in Hstep. unfold current, offered in *.
  destruct l as [m|c'|c'|c'| | | | |c'|c'|c']; simpl; rewrite ?app_nil_r.
  - destruct (listen s) eqn:Hl; rewrite ?Hl in *.
    + case_decide; [| done]. injection Hstep as <-. exists past.
      unfold in_order, current, offered. cbn. rewrite ?Hl.
      split_and!; [by rewrite HP, <- !(assoc_L (++)) | done | done | done].
    + injection Hstep as <-. exists past.
      unfold in_order, current, offered. cbn.
      rewrite (Hpark eq_refl) in *.
      split_and!; [by rewrite HP, !app_nil_r | done | |].
      * intros ? ? [= <- <-]. apply NoDup_fst_map_to_list.
      * intros c cn Hc. case_decide; [by apply (Hrecv c) |].
        rewrite fmap_app. apply sublist_inserts_r. by apply (Hrecv c).
    + case_decide; [| done]. injection Hstep as <-. exists past.
      unfold in_order, current, offered. cbn. rewrite ?Hl.
      split_and!; [by rewrite HP, <- !(assoc_L (++)) | done | done | done].
  - destruct (conns s !! c') eqn:E; [done |]. injection Hstep as <-.
    exists past. unfold in_order, current, offered. cbn.
    split_and!; [done | done | done |].
    intros c cn. rewrite lookup_insert. case_decide.
    + intros [= <-]. apply sublist_nil_l.
    + apply Hrecv.
  - destruct (phase_of s c') as [[]|]; try done.
    destruct (listen s) eqn:Hl; try done;
      injection Hstep as <-;
      exists past; unfold in_order, current, offered; cbn;
      (split_and!; [done | done | done |]);
      intros c cn; (apply received_set_phase; [done | apply Hrecv]).
  - destruct (phase_of s c') as [[]|]; try done.
    destruct (listen s) eqn:Hl; try done;
      injection Hstep as <-;
      exists past; unfold in_order, current, offered; cbn;
      (split_and!; [done | done | done |]);
      intros c cn; (apply received_set_phase; [done | apply Hrecv]).
  - destruct (listen s) eqn:Hl; try done.
    destruct (Notifier (broker s)) as [|e rest] eqn:HN; [done |].
    injection Hstep as <-. exists past.
    unfold in_order, current, offered. cbn.
    split_and!; [done | done | |].
    + intros ? ? [= <- <-]. apply NoDup_fst_map_to_list.
    + intros c cn Hc. case_decide; [by apply (Hrecv c) |].
      rewrite fmap_app. apply sublist_inserts_r. by apply (Hrecv c).
  - destruct (listen s) eqn:Hl; try done.
    destruct (Notifier (broker s)) as [|e rest] eqn:HN; [| done].
    injection Hstep as <-. exists past.
    unfold in_order, current, offered. cbn. by rewrite HN.
  - destruct (listen s) as [| |e [|c' todo]] eqn:Hl; try done.
    injection Hstep as <-. exists past.
    pose proof (Hnodup _ _ eq_refl) as [Hc' Htodo]%NoDup_cons.
    unfold in_order, current, offered. cbn.
    split_and!; [done | done | by intros ? ? [= <- <-] |].
    intros c cn. rewrite lookup_trySend.
    destruct (decide (c' = c)) as [<-|Hne].
    + rewrite decide_False by done.
      destruct (conns s !! c') as [[p out]|] eqn:E; [| done].
      intros [= <-]. specialize (Hrecv c' _ E).
      rewrite decide_True in Hrecv by set_solver.
      rewrite fmap_app.
      destruct p; try (by apply sublist_inserts_r).
      cbn. unfold received in *. cbn in *. rewrite app_nil_r in Hrecv.
      by apply sublist_app.
    + intros Hc. specialize (Hrecv c cn Hc).
      destruct (decide (c ∈ todo)).
      * by rewrite decide_True in Hrecv by set_solver.
      * by rewrite decide_False in Hrecv by set_solver.
  - destruct (listen s) as [| |e [|]] eqn:Hl; try done.
    injection Hstep as <-. exists (past ++ [e])%list.
    unfold in_order, current, offered. cbn.
    split_and!; [by rewrite HP, <- !(assoc_L (++)) | done | done |].
    intros c cn Hc. specialize (Hrecv c cn Hc).
    by rewrite decide_False in Hrecv by set_solver.
  - destruct (phase_of s c') as [[]|]; try done.
    injection Hstep as <-. exists past.
    unfold in_order, current, offered. cbn.
    split_and!; [done | done | done |].
    intros c cn. apply received_set_phase; [done | apply Hrecv].
  - destruct (conns s !! c') as [[[] out]|] eqn:E; try done.
    injection Hstep as <-. exists past.
    unfold in_order, current, offered. cbn.
    split_and!; [done | done | done |].
    intros c cn. rewrite lookup_insert. case_decide; [| apply Hrecv].
    subst c'. intros [= <-]. rewrite received_phase by done.
    by apply (Hrecv c _ E).
  - destruct (phase_of s c') as [[]|]; try done.
    injection Hstep as <-. exists past.
    unfold in_order, current, offered. cbn.
    split_and!; [done | done | done |].
    intros c cn. apply received_set_phase; [done | apply Hrecv].
Qed.

Lemma in_order_run (tr : list Label) (s s' : System) (past P : list bytes) :
  in_order past P s ->
  run tr s = Some s' ->
  exists past', in_order past' (P ++ published tr)%list s'.
Proof.
  revert s past P. induction tr as [|l tr IH]; intros s past P Hin Hrun.
  - injection Hrun as <-. exists past. simpl. by rewrite app_nil_r.
  - simpl in Hrun. destruct (step l s) as [s1|] eqn:Hstep; [| done].
    destruct (in_order_step _ _ _ _ _ Hin Hstep) as (past1 & Hin1).
    destruct (IH _ _ _ Hin1 Hrun) as (past' & Hin').
    exists past'. change (l :: tr) with ([l] ++ tr)%list.
    unfold published in *. by rewrite omap_app, (assoc_L (++)).
Qed.

Lemma in_order_NewSystem : in_order [] [] NewSystem.
Proof.
  unfold in_order, NewSystem, current, offered. cbn.
  split_and!; [done | done | done |]. intros c cn. by rewrite lookup_empty.
Qed.

Lemma offered_published (s : System) (past P : list bytes) (c : nat) :
  P = (past ++ current s ++ Notifier (broker s))%list ->
  sublist (offered s past c) P.
Proof.
  intros ->. unfold offered, current.
  destruct (listen s); try by apply sublist_inserts_r.
  case_decide; [by apply sublist_inserts_r |].
  rewrite (assoc_L (++)). by apply sublist_inserts_r.
Qed.

(** X9: a subscriber receives events in the order they were published:
    what a [ServeHTTP] call has received, and so what it has written to its
    stream, is the frames of some of the published events, none twice for
    one publish and none out of order. *)
Theorem received_in_publish_order (tr : list Label) (s : System) (c : nat)
    (cn : Conn) :
  run tr NewSystem = Some s ->
  conns s !! c = Some cn ->
  sublist (received cn) (frame <$> published tr) /\
  sublist (stream cn) (frame <$> published tr).
Proof.
  intros Hrun Hc.
  destruct (in_order_run _ _ _ _ _ in_order_NewSystem Hrun)
    as (past & HP & _ & _ & Hrecv).
  simpl in HP.
  assert (sublist (received cn) (frame <$> published tr)) as Hsub.
  { etrans; [by apply (Hrecv c) |].
    apply fmap_sublist. by apply offered_published. }
  split; [exact Hsub |].
  etrans; [| exact Hsub]. unfold received. by apply sublist_inserts_r.
Qed.

Lemma received_in_publish_order_witness :
  let tr := [Connect 0; Register 0; Enter 0; Publish "a"; Take; TrySend;
             EndRange; Publish "b"; Take; TrySend; EndRange; Flush 0;
             Publish "c"; Take; TrySend; EndRange; Flush 0] in
  exists s cn,
    run tr NewSystem = Some s /\
    conns s !! 0 = Some cn /\
    stream cn = [frame "a"; frame "c"] /\
    sublist (stream cn) (frame <$> published tr).
Proof.
  intros tr.
  destruct (run tr NewSystem) as [s|] eqn:Hrun;
    [| vm_compute in Hrun; discriminate].
  destruct (conns s !! 0) as [cn|] eqn:Hc;
    [| vm_compute in Hrun; simplify_eq; vm_compute in Hc; discriminate].
  exists s, cn. split; [reflexivity | split; [exact Hc | split]].
  - vm_compute in Hrun. simplify_eq. vm_compute in Hc. by simplify_eq.
  - exact (proj2 (received_in_publish_order tr s 0 cn Hrun Hc)).
Defined.

(** X10: of what was published, [Notifier] holds the latest and nothing
    else: in every state the broker can reach the buffered values are the
    last events published, at most one of them, none while [listen] sleeps
    in its select; and an event being handed out is one that was
    published. *)
Theorem notifier_holds_latest (tr : list Label) (s : System) :
  run tr NewSystem = Some s ->
  Notifier (broker s) `suffix_of` published tr /\
  length (Notifier (broker s)) <= NotifierCap /\
  (listen s = Parked -> Notifier (broker s) = []) /\
  (forall event todo, listen s = Ranging event todo ->
     event ∈ published tr).
Proof.
  intros Hrun.
  destruct (in_order_run _ _ _ _ _ in_order_NewSystem Hrun)
    as (past & HP & Hpark & _ & _).
  simpl in HP. split_and!.
  - rewrite HP, (assoc_L (++)). by apply suffix_app_r.
  - eapply run_Notifier_cap; [exact Hrun |]. simpl. lia.
  - exact Hpark.
  - intros event todo Hl. rewrite HP. unfold current. rewrite Hl.
    set_solver.
Qed.

Lemma notifier_holds_latest_witness :
  let tr := [Publish "a"; Take; Publish "b"] in
  exists s,
    run tr NewSystem = Some s /\
    Notifier (broker s) = ["b"] /\
    Notifier (broker s) `suffix_of` published tr /\
    step (Publish "c") s = None.
Proof.
  intros tr.
  destruct (run tr NewSystem) as [s|] eqn:Hrun;
    [| vm_compute in Hrun; discriminate].
  exists s. split; [reflexivity |].
  split; [vm_compute in Hrun; by simplify_eq |].
  split; [exact (proj1 (notifier_holds_latest tr s Hrun)) |].
  vm_compute in Hrun. by simplify_eq.
Defined.

Lemma phase_of_set_phase (s : System) (c' c : nat) (p : Phase) :
  is_Some (conns s !! c') ->
  phase <$> set_phase c' p (conns s) !! c =
    if decide (c' = c) then Some p else phase_of s c.
Proof.
  intros [cn Hcn]. rewrite lookup_set_phase. unfold phase_of.
  case_decide; [subst; by rewrite Hcn | done].
Qed.

Lemma clients_live_step (l : Label) (s s' : System) :
  clients_live s -> step l s = Some s' -> clients_live s'.
Proof.
  intros [Hcl Htodo] Hstep. unfold step in Hstep.
  unfold clients_live, registered, phase_of in *.
  destruct l as [m|c'|c'|c'| | | | |c'|c'|c'].
  - destruct (listen s) eqn:Hl; [case_decide; [| done] | | case_decide; [| done]];
      injection Hstep as <-; cbn; (split; [done |]); try done.
    intros ? ? c [= <- <-]. apply elem_of_keys.
  - destruct (conns s !! c') eqn:E; [done |]. injection Hstep as <-. cbn.
    split; [| done]. intros c. rewrite lookup_insert.
    case_decide; [| done]. subst c'. cbn. rewrite Hcl, E. done.
  - destruct (conns s !! c') as [[[] out]|] eqn:E; try done. cbn in Hstep.
    destruct (listen s) eqn:Hl; try done; injection Hstep as <-; cbn;
      (split; [| done]); intros c;
      rewrite phase_of_set_phase by (rewrite E; eauto);
      rewrite lookup_insert; case_decide; try done.
  - destruct (conns s !! c') as [[[] out]|] eqn:E; try done. cbn in Hstep.
    destruct (listen s) eqn:Hl; try done; injection Hstep as <-; cbn;
      (split; [| done]); intros c;
      rewrite phase_of_set_phase by (rewrite E; eauto);
      rewrite lookup_delete; case_decide; try done.
  - destruct (listen s) eqn:Hl; try done.
    destruct (Notifier (broker s)); [done |]. injection Hstep as <-. cbn.
    split; [done |]. intros ? ? c [= <- <-]. apply elem_of_keys.
  - destruct (listen s) eqn:Hl; try done.
    destruct (Notifier (broker s)); [| done]. by injection Hstep as <-.
  - destruct (listen s) as [| |e [|c' todo]] eqn:Hl; try done.
    injection Hstep as <-. cbn. split.
    + intros c. rewrite lookup_trySend, Hcl.
      case_decide; [| done]. subst c'.
      destruct (conns s !! c) as [[[] out]|]; done.
    + intros ? ? c [= <- <-] Hc. apply (Htodo e (c' :: todo) c eq_refl).
      set_solver.
  - destruct (listen s) as [| |e [|]] eqn:Hl; try done.
    by injection Hstep as <-.
  - destruct (conns s !! c') as [[[] out]|] eqn:E; try done.
    injection Hstep as <-. cbn. split; [| done]. intros c.
    rewrite phase_of_set_phase by (rewrite E; eauto). rewrite Hcl.
    case_decide; [subst c'; by rewrite E | done].
  - destruct (conns s !! c') as [[[] out]|] eqn:E; try done.
    injection Hstep as <-. cbn. split; [| done]. intros c.
    rewrite lookup_insert, Hcl.
    case_decide; [subst c'; by rewrite E | done].
  - destruct (conns s !! c') as [[[] out]|] eqn:E; try done.
    injection Hstep as <-. cbn. split; [| done]. intros c.
    rewrite phase_of_set_phase by (rewrite E; eauto). rewrite Hcl.
    case_decide; [subst c'; by rewrite E | done].
Qed.

Lemma clients_live_run (tr : list Label) (s s' : System) :
  clients_live s -> run tr s = Some s' -> clients_live s'.
Proof.
  revert s. induction tr as [|l tr IH]; intros s Hs Hrun.
  - by injection Hrun as <-.
  - simpl in Hrun. destruct (step l s) as [s1|] eqn:Hstep; [| done].
    eauto using clients_live_step.
Qed.

Lemma clients_live_NewSystem : clients_live NewSystem.
Proof.
  split; [| done]. intros c. unfold phase_of. cbn.
  by rewrite !lookup_empty.
Qed.

(** X11: in every state the broker can reach, [broker.clients] is exactly
    the set of [ServeHTTP] calls that [listen] has registered and not yet
    unregistered, each with the value [true]; and the clients the range
    loop has still to visit are all registered. *)
Theorem clients_are_the_subscribed (tr : list Label) (s : System) (c : nat) :
  run tr NewSystem = Some s ->
  (registered s c <->
     exists p, phase_of s c = Some p /\ subscribed p = true) /\
  (forall b, clients (broker s) !! c = Some b -> b = true) /\
  (forall event todo,
     listen s = Ranging event todo -> c ∈ todo -> registered s c).
Proof.
  intros Hrun.
  destruct (clients_live_run _ _ _ clients_live_NewSystem Hrun)
    as [Hcl Htodo].
  unfold registered. specialize (Hcl c). split_and!.
  - rewrite Hcl. destruct (phase_of s c) as [p|]; cbn.
    + destruct (subscribed p) eqn:Hp; split.
      * intros _. exists p. by split.
      * intros _. by eexists.
      * by intros [? ?].
      * intros (? & [= <-] & ?). congruence.
    + split; [by intros [? ?] | by intros (? & ? & ?)].
  - intros b. rewrite Hcl. case_match; congruence.
  - intros event todo Hl Hc. by eapply Htodo.
Qed.

Lemma clients_are_the_subscribed_witness :
  let tr := [Connect 0; Register 0; Enter 0; Connect 1; Register 1;
             Cancel 0; Unregister 0; Connect 2] in
  exists s,
    run tr NewSystem = Some s /\
    ~ registered s 0 /\ registered s 1 /\ ~ registered s 2 /\
    phase_of s 1 = Some Entering.
Proof.
  intros tr.
  destruct (run tr NewSystem) as [s|] eqn:Hrun;
    [| vm_compute in Hrun; discriminate].
  assert (phase_of s 0 = Some Returned /\ phase_of s 1 = Some Entering /\
          phase_of s 2 = Some AtNewClients) as (H0 & H1 & H2).
  { vm_compute in Hrun. by simplify_eq. }
  exists s. split; [reflexivity |].
  pose proof (fun c => proj1 (clients_are_the_subscribed tr s c Hrun)) as H.
  split_and!; [| | | exact H1].
  - rewrite (H 0), H0. by intros (? & [= <-] & ?).
  - rewrite (H 1), H1. eauto.
  - rewrite (H 2), H2. by intros (? & [= <-] & ?).
Defined.

Lemma returned_step (l : Label) (s s' : System) (c : nat) :
  phase_of s c = Some Returned ->
  step l s = Some s' ->
  conns s' !! c = conns s !! c.
Proof.
  unfold step. intros Hc Hstep.
  assert (forall c' p, phase_of s c' = Some p -> p <> Returned -> c' <> c)
    as Hother by (intros c' p Hp Hne ->; congruence).
  destruct l as [m|c'|c'|c'| | | | |c'|c'|c'].
  - destruct (listen s); [case_decide; [| done] | | case_decide; [| done]];
      by injection Hstep as <-.
  - destruct (conns s !! c') eqn:E'; [done |]. injection Hstep as <-. cbn.
    rewrite lookup_insert_ne; [done |].
    intros ->. unfold phase_of in Hc. by rewrite E' in Hc.
  - destruct (phase_of s c') as [[]|] eqn:E'; try done.
    destruct (listen s); cbn in Hstep; try done; injection Hstep as <-; cbn;
      (rewrite lookup_set_phase, decide_False; [done | by eapply Hother]).
  - destruct (phase_of s c') as [[]|] eqn:E'; try done.
    destruct (listen s); cbn in Hstep; try done; injection Hstep as <-; cbn;
      (rewrite lookup_set_phase, decide_False; [done | by eapply Hother]).
  - destruct (listen s), (Notifier (broker s)); try done.
    by injection Hstep as <-.
  - destruct (listen s), (Notifier (broker s)); try done.
    by injection Hstep as <-.
  - destruct (listen s) as [| |e [|c' todo]]; try done.
    injection Hstep as <-. cbn. rewrite lookup_trySend.
    case_decide; [| done]. subst c'. unfold phase_of in Hc.
    destruct (conns s !! c) as [[[] ?]|]; done.
  - destruct (listen s) as [| |e [|]]; try done. by injection Hstep as <-.
  - destruct (phase_of s c') as [[]|] eqn:E'; try done.
    injection Hstep as <-. cbn.
    rewrite lookup_set_phase, decide_False; [done | by eapply Hother].
  - destruct (conns s !! c') as [[[] ?]|] eqn:E'; try done.
    injection Hstep as <-. cbn.
    rewrite lookup_insert_ne; [done |].
    intros ->. unfold phase_of in Hc. by rewrite E' in Hc.
  - destruct (phase_of s c') as [[]|] eqn:E'; try done.
    injection Hstep as <-. cbn.
    rewrite lookup_set_phase, decide_False; [done | by eapply Hother].
Qed.

Lemma returned_run (tr : list Label) (s s' : System) (c : nat) :
  phase_of s c = Some Returned ->
  run tr s = Some s' ->
  conns s' !! c = conns s !! c.
Proof.
  revert s. induction tr as [|l tr IH]; intros s Hc Hrun.
  - by injection Hrun as <-.
  - simpl in Hrun. destruct (step l s) as [s1|] eqn:Hstep; [| done].
    pose proof (returned_step _ _ _ _ Hc Hstep) as H1.
    rewrite <- H1. apply IH; [| done]. unfold phase_of in *. by rewrite H1.
Qed.

(** X12: a [ServeHTTP] call that has returned stays as it is: whatever
    happens afterwards, it is never in [broker.clients] again, it is sent
    nothing and its stream does not change. *)
Theorem returned_is_final (tr0 tr : list Label) (s s' : System) (c : nat) :
  run tr0 NewSystem = Some s ->
  phase_of s c = Some Returned ->
  run tr s = Some s' ->
  conns s' !! c = conns s !! c /\
  ~ registered s' c /\
  (forall event, copies event s' c = copies event s c).
Proof.
  intros Hreach Hc Hrun.
  pose proof (returned_run _ _ _ _ Hc Hrun) as Hsame.
  split_and!; [done | |].
  - assert (run (tr0 ++ tr) NewSystem = Some s') as Hreach'
      by (by rewrite run_app, Hreach).
    destruct (clients_live_run _ _ _ clients_live_NewSystem Hreach')
      as [Hcl _].
    unfold registered. rewrite Hcl. unfold phase_of in *.
    rewrite Hsame. destruct (conns s !! c) as [[p out]|]; [| done].
    injection Hc as ->. by intros [? ?].
  - intros event. unfold copies. by rewrite Hsame.
Qed.

Lemma returned_is_final_witness :
  let tr0 := [Connect 0; Register 0; Enter 0; Publish "a"; Take; TrySend;
              EndRange; Flush 0; Cancel 0; Unregister 0] in
  let tr := [Publish "b"; Take; EndRange; Connect 1; Register 1] in
  exists s s',
    run tr0 NewSystem = Some s /\
    phase_of s 0 = Some Returned /\
    run tr s = Some s' /\
    conns s' !! 0 = Some (mkConn Returned [frame "a"]) /\
    ~ registered s' 0.
Proof.
  intros tr0 tr.
  destruct (run tr0 NewSystem) as [s|] eqn:Hreach;
    [| vm_compute in Hreach; discriminate].
  assert (conns s !! 0 = Some (mkConn Returned [frame "a"])) as Hc0
    by (vm_compute in Hreach; by simplify_eq).
  assert (phase_of s 0 = Some Returned) as Hc
    by (unfold phase_of; by rewrite Hc0).
  destruct (run tr s) as [s'|] eqn:Hrun;
    [| vm_compute in Hreach; simplify_eq; vm_compute in Hrun; discriminate].
  exists s, s'.
  destruct (returned_is_final tr0 tr s s' 0 Hreach Hc Hrun)
    as (Hsame & Hnot & _).
  split_and!; [reflexivity | exact Hc | exact Hrun
              | by rewrite Hsame | exact Hnot].
Defined.

Lemma range_keeps_idle (todo : list nat) (s : System) (event : bytes)
    (c : nat) :
  listen s = Ranging event todo ->
  phase_of s c <> Some AtSelect ->
  exists s',
    run (replicate (length todo) TrySend ++ [EndRange]) s = Some s' /\
    listen s' = Select /\ broker s' = broker s /\
    conns s' !! c = conns s !! c.
Proof.
  revert s. induction todo as [|c' todo IH]; intros s Hl Hc.
  - eexists. simpl. rewrite Hl. done.
  - set (s1 := mkSystem (broker s) (Ranging event todo)
                        (trySend event c' (conns s)) (listenLog s)).
    assert (conns s1 !! c = conns s !! c) as Hsame.
    { unfold s1. cbn. rewrite lookup_trySend. case_decide; [| done].
      subst c'. unfold phase_of in Hc.
      destruct (conns s !! c) as [[[] ?]|]; done. }
    destruct (IH s1) as (s' & Hrun & Hsel & Hb & Hconn); [done | |].
    { unfold phase_of in *. by rewrite Hsame. }
    exists s'. simpl. rewrite Hl.
    split; [exact Hrun |]. split; [done |]. split; [done |].
    by rewrite Hconn.
Qed.

(** X13: [listen] never refuses a registration or a deregistration: from
    any state, with a [ServeHTTP] call at its send on [newClients] (or on
    [closingClients]), moves of [listen] alone lead to the select where
    that send is received, and the call itself is as it was. *)
Theorem registration_never_refused (s : System) (c : nat) (l : Label) :
  (phase_of s c = Some AtNewClients /\ l = Register c) \/
  (phase_of s c = Some AtClosingClients /\ l = Unregister c) ->
  exists tr s',
    Forall (fun l => listen_move l = true) tr /\
    run tr s = Some s' /\
    conns s' !! c = conns s !! c /\
    is_Some (step l s').
Proof.
  intros Hcase.
  assert (phase_of s c <> Some AtSelect) as Hidle
    by (destruct Hcase as [[-> _] | [-> _]]; discriminate).
  assert (forall s', conns s' !! c = conns s !! c ->
            at_select (listen s') = true -> is_Some (step l s')) as Hready.
  { intros s' Hsame Hsel.
    destruct Hcase as [[Hp ->] | [Hp ->]]; unfold step, phase_of in *;
      rewrite Hsame, Hp, Hsel; cbn; eauto. }
  destruct (listen s) as [| |event todo] eqn:Hl.
  - exists [], s. split_and!; [constructor | done | done |].
    apply Hready; [done | by rewrite Hl].
  - exists [], s. split_and!; [constructor | done | done |].
    apply Hready; [done | by rewrite Hl].
  - destruct (range_keeps_idle todo s event c Hl Hidle)
      as (s' & Hrun & Hsel & _ & Hsame).
    exists (replicate (length todo) TrySend ++ [EndRange])%list, s'.
    split_and!; [apply Forall_listen_range | done | done |].
    apply Hready; [done | by rewrite Hsel].
Qed.

Lemma registration_never_refused_witness :
  let tr0 := [Connect 0; Register 0; Enter 0; Publish "a"; Take; Connect 1] in
  exists s,
    run tr0 NewSystem = Some s /\
    phase_of s 1 = Some AtNewClients /\
    step (Register 1) s = None /\
    exists tr s',
      Forall (fun l => listen_move l = true) tr /\
      run tr s = Some s' /\ is_Some (step (Register 1) s').
Proof.
  intros tr0.
  destruct (run tr0 NewSystem) as [s|] eqn:Hrun;
    [| vm_compute in Hrun; discriminate].
  assert (phase_of s 1 = Some AtNewClients /\ step (Register 1) s = None)
    as [Hc Hnow] by (vm_compute in Hrun; by simplify_eq).
  exists s. split_and!; [reflexivity | exact Hc | exact Hnow |].
  destruct (registration_never_refused s 1 (Register 1)
              (or_introl (conj Hc eq_refl)))
    as (tr & s' & Hf & Hr & _ & Hs).
  exists tr, s'. split_and!; [exact Hf | exact Hr | exact Hs].
Defined.



